(** * my_data_model: catalog extraction into a schema model

    Shallow embedding of [src/my_data_model/main.py]: the pydantic models,
    the three catalog lookups of [PostgresSchemaExtractor], [extract_schema]
    and [main], followed by the properties of the assembled model.

    Modelling choices.
    - A Python [str] is a [string] holding its UTF-8 bytes.
    - A Python [dict] keeps its keys in insertion order and assigning to a
      key that is already there replaces the value in place; it is an
      association list ([dict]) with exactly that assignment ([dict_set]).
    - The database is a [Catalog]: one answer per metadata call or SQL
      query, either the rows or the text of the exception the call raises.
      Rows have the types the pydantic constructors accept: a row that
      pydantic would reject is outside the model, so what is stated of a
      run that raises is stated of a run that stops at a raising call.
    - [str.lower] and pydantic's serializer are library code: they are
      parameters.
    - Effects are explicit: a computation yields the events it performed
      (lines printed, catalog calls, file writes) and either an exception
      or a value. *)

From Stdlib Require Import Ascii String.
From stdpp Require Import base decidable option list sets strings pretty.

(** ** Python strings *)

(** [str.lower] is a builtin of Python and follows Unicode: the embedding
    takes it as a parameter. *)
Class StrLower := str_lower : string -> string.

(** Lower-casing of the ASCII letters, other bytes left as they are: what
    [str.lower] does on ASCII text. *)
Definition ascii_lower (c : ascii) : ascii :=
  let n := nat_of_ascii c in
  if (65 <=? n)%nat && (n <=? 90)%nat then ascii_of_nat (n + 32) else c.

Fixpoint lower (s : string) : string :=
  match s with
  | EmptyString => EmptyString
  | String c s' => String (ascii_lower c) (lower s')
  end.

(** [lower] stands for [str.lower] in the sample runs, whose labels are
    ASCII text. *)
Definition ascii_str_lower : StrLower := lower.

(** [needle in hay] on strings. *)
Fixpoint contains (needle hay : string) : bool :=
  String.prefix needle hay ||
  match hay with
  | EmptyString => false
  | String _ hay' => contains needle hay'
  end.

(** ** Python dictionaries with string keys *)

Section dict.
Context {V : Type}.

Definition dict := list (string * V).

Definition dict_empty : dict := [].

(** [d.get(k)] *)
Fixpoint dict_get (d : dict) (k : string) : option V :=
  match d with
  | [] => None
  | (k', v) :: d' => if decide (k' = k) then Some v else dict_get d' k
  end.

(** [k in d] *)
Definition dict_mem (d : dict) (k : string) : bool :=
  match dict_get d k with Some _ => true | None => false end.

(** [d[k] = v] *)
Fixpoint dict_set (d : dict) (k : string) (v : V) : dict :=
  match d with
  | [] => [(k, v)]
  | (k', v') :: d' =>
      if decide (k' = k) then (k, v) :: d' else (k', v') :: dict_set d' k v
  end.

Definition dict_keys (d : dict) : list string := d.*1.

(** [{key(r): val(r) for r in rows}] *)
Definition dict_comprehension {R : Type}
    (key : R -> string) (val : R -> V) (rows : list R) : dict :=
  foldl (fun d r => dict_set d (key r) (val r)) dict_empty rows.
End dict.

Arguments dict : clear implicits.

(** ** Pydantic models *)

Record ForeignKey := mkForeignKey {
  fk_target_table : string;
  fk_target_column : string;
  fk_constraint_name : string
}.

Record Column := mkColumn {
  col_name : string;
  col_type : string;
  col_nullable : bool;
  col_default : option string;
  col_primary_key : bool;
  col_foreign_key : option ForeignKey
}.

Record Index := mkIndex {
  idx_name : string;
  idx_columns : list string;
  idx_unique : bool;
  idx_type : option string
}.

Record ReferencedBy := mkReferencedBy {
  ref_table : string;
  ref_columns : list string;
  ref_constraint : string
}.

Record Table := mkTable {
  tbl_description : option string;
  tbl_columns : dict Column;
  tbl_indexes : dict Index;
  tbl_referenced_by : dict ReferencedBy
}.

Record Schema := mkSchema {
  sch_tables : dict Table
}.

Record DatabaseModel := mkDatabaseModel {
  db_schemas : dict Schema
}.

(** ** Exceptions *)

Inductive exn :=
  | Exception (str : string)         (* an exception raised by a library *)
  | SchemaValueError (msg : string)  (* the extractor's own error *)
  | SystemExit (code : Z).           (* [sys.exit(code)] *)

(** [str(e)] *)
Definition exn_str (e : exn) : string :=
  match e with
  | Exception s => s
  | SchemaValueError s => s
  | SystemExit c => pretty c
  end.

(** [isinstance(e, Exception)]: [SystemExit] derives from [BaseException]
    only. *)
Definition is_Exception (e : exn) : bool :=
  match e with
  | SystemExit _ => false
  | _ => true
  end.

(** ** The catalog *)

(** One dictionary of [inspector.get_columns]; [ci_type] is [str(col["type"])]. *)
Record ColumnInfo := mkColumnInfo {
  ci_name : string;
  ci_type : string;
  ci_nullable : bool;
  ci_default : option string
}.

(** One dictionary of [inspector.get_indexes]; [ii_type] is [None] when the
    dictionary has no ["type"] key. *)
Record IndexInfo := mkIndexInfo {
  ii_name : string;
  ii_column_names : list string;
  ii_unique : bool;
  ii_type : option string
}.

(** One row of the foreign-key query: [row[0]] .. [row[3]]. *)
Record FkRow := mkFkRow {
  fkr_column_name : string;
  fkr_target_table : string;
  fkr_target_column : string;
  fkr_constraint_name : string
}.

(** One row of the referenced-by query: [row[0]] .. [row[2]]. *)
Record RefRow := mkRefRow {
  rr_source_table : string;
  rr_source_column : string;
  rr_constraint_name : string
}.

(** The answer of a call: the text of the exception raised, or the rows. *)
Definition answer (A : Type) : Type := string + A.

Record Catalog := mkCatalog {
  get_schema_names : answer (list string);
  get_table_names : string -> answer (list string);          (* schema *)
  get_columns : string -> string -> answer (list ColumnInfo); (* table, schema *)
  get_indexes : string -> string -> answer (list IndexInfo);  (* table, schema *)
  execute_primary_keys : string -> answer (list string);      (* :table_name *)
  execute_foreign_keys : string -> string -> answer (list FkRow);  (* :schema, :table_name *)
  execute_referenced_by : string -> string -> answer (list RefRow) (* :schema, :table_name *)
}.

(** ** Effects *)

Inductive query :=
  | QSchemaNames
  | QTableNames (schema : string)
  | QColumns (table schema : string)
  | QIndexes (table schema : string)
  | QPrimaryKeys (full_table_name : string)
  | QForeignKeys (schema table : string)
  | QReferencedBy (schema table : string).

Inductive event :=
  | EPrint (line : string)
  | EQuery (q : query)
  | EWrite (path content : string)
  | EClose.

(** A computation: the events performed, then an exception or a value. *)
Definition M (A : Type) : Type := list event * (exn + A).

Definition trace {A} (m : M A) : list event := m.1.
Definition result {A} (m : M A) : exn + A := m.2.

Definition ret {A} (a : A) : M A := ([], inr a).

Definition raise {A} (e : exn) : M A := ([], inl e).

Definition bind {A B} (m : M A) (f : A -> M B) : M B :=
  match m with
  | (tr, inl e) => (tr, inl e)
  | (tr, inr a) => let '(tr', r) := f a in (tr ++ tr', r)
  end.

#[global] Instance M_ret : MRet M := @ret.
#[global] Instance M_bind : MBind M := fun A B f m => bind m f.

(** [try: m except Exception as e: h e] *)
Definition try_except {A} (m : M A) (h : exn -> M A) : M A :=
  match m with
  | (tr, inl e) =>
      if is_Exception e then let '(tr', r) := h e in (tr ++ tr', r)
      else (tr, inl e)
  | (tr, inr a) => (tr, inr a)
  end.

(** [try: m finally: fin] *)
Definition try_finally {A} (m : M A) (fin : M unit) : M A :=
  let '(tr, r) := m in
  let '(tr', r') := fin in
  (tr ++ tr', match r' with inl e' => inl e' | inr _ => r end).

Definition emit (ev : event) : M unit := ([ev], inr tt).

(** [print(line, flush=True)] *)
Definition print (line : string) : M unit := emit (EPrint line).

(** A call to the database: recorded, then its answer. *)
Definition ask {A} (q : query) (a : answer A) : M A :=
  match a with
  | inl s => ([EQuery q], inl (Exception s))
  | inr rows => ([EQuery q], inr rows)
  end.

(** [for x in xs: acc = body acc x] *)
Fixpoint for_each {A X} (body : A -> X -> M A) (acc : A) (xs : list X) : M A :=
  match xs with
  | [] => ret acc
  | x :: xs' => acc' ← body acc x; for_each body acc' xs'
  end.

(** ** PostgresSchemaExtractor *)

Definition _get_primary_keys (cat : Catalog) (schema table_name : string)
    : M (list string) :=
  let full_table_name := schema +:+ "." +:+ table_name in
  rows ← ask (QPrimaryKeys full_table_name)
             (execute_primary_keys cat full_table_name);
  mret rows.

Definition _get_foreign_keys (cat : Catalog) (schema table_name : string)
    : M (dict ForeignKey) :=
  rows ← ask (QForeignKeys schema table_name)
             (execute_foreign_keys cat schema table_name);
  mret (dict_comprehension fkr_column_name
          (fun row => mkForeignKey (fkr_target_table row)
                        (fkr_target_column row) (fkr_constraint_name row))
          rows).

Definition _get_referenced_by (cat : Catalog) (schema table_name : string)
    : M (dict ReferencedBy) :=
  rows ← ask (QReferencedBy schema table_name)
             (execute_referenced_by cat schema table_name);
  mret (dict_comprehension rr_source_table
          (fun row => mkReferencedBy (rr_source_table row)
                        [rr_source_column row] (rr_constraint_name row))
          rows).

Definition system_schemas : list string := ["information_schema"; "pg_catalog"].

(** [column.foreign_key = fk] *)
Definition set_foreign_key (column : Column) (fk : option ForeignKey) : Column :=
  mkColumn (col_name column) (col_type column) (col_nullable column)
           (col_default column) (col_primary_key column) fk.

(** The [Column] built for one entry of [get_columns]; its [foreign_key]
    is assigned, from [foreign_keys[col["name"]]], when the name is a key
    of [foreign_keys]. *)
Definition build_column (primary_keys : list string)
    (foreign_keys : dict ForeignKey) (col : ColumnInfo) : Column :=
  let column :=
    mkColumn (ci_name col) (ci_type col) (ci_nullable col) (ci_default col)
             (bool_decide (ci_name col ∈ primary_keys)) None in
  if dict_mem foreign_keys (ci_name col) then
    set_foreign_key column (dict_get foreign_keys (ci_name col))
  else column.

(** Body of [for col in columns]. *)
Definition add_column (primary_keys : list string)
    (foreign_keys : dict ForeignKey) (columns : dict Column) (col : ColumnInfo)
    : dict Column :=
  dict_set columns (ci_name col) (build_column primary_keys foreign_keys col).

(** Body of [for idx in indexes]. *)
Definition add_index `{!StrLower} (indexes : dict Index) (idx : IndexInfo)
    : dict Index :=
  let index_type := str_lower (default "btree" (ii_type idx)) in
  if decide (ii_name idx ≠ "PRIMARY") then
    dict_set indexes (ii_name idx)
      (mkIndex (ii_name idx) (ii_column_names idx) (ii_unique idx)
               (Some index_type))
  else indexes.

(** The message of the first handler: its first literal is not an f-string,
    so the braces stay as written. *)
Definition index_error_msg (e : exn) : string :=
  "Erro ao tentar obter os indices no catálogo para '{schema_name}.{table_name}'. "
  +:+ "Exception: " +:+ exn_str e.

Definition referenced_by_error_msg (schema_name table_name : string) (e : exn)
    : string :=
  "Erro ao tentar obter restrições de integridade referencial "
  +:+ "no catálogo para '" +:+ schema_name +:+ "." +:+ table_name
  +:+ "'. Exception: " +:+ exn_str e.

(** The [try] block around the index lookup. *)
Definition fetch_indexes `{!StrLower} (cat : Catalog) (schema_name table_name : string)
    : M (dict Index) :=
  try_except
    (indexes ← ask (QIndexes table_name schema_name)
                   (get_indexes cat table_name schema_name);
     mret (foldl add_index dict_empty indexes))
    (fun e => raise (SchemaValueError (index_error_msg e))).

(** The [try] block around the reverse-reference lookup. *)
Definition fetch_referenced_by (cat : Catalog) (schema_name table_name : string)
    : M (dict ReferencedBy) :=
  try_except
    (_get_referenced_by cat schema_name table_name)
    (fun e => raise (SchemaValueError
                       (referenced_by_error_msg schema_name table_name e))).

(** Body of [for table_name in tables], up to the insertion into
    [schema_model.tables]. *)
Definition extract_table `{!StrLower} (cat : Catalog) (schema_name table_name : string)
    : M Table :=
  columns ← ask (QColumns table_name schema_name)
                (get_columns cat table_name schema_name);
  primary_keys ← _get_primary_keys cat schema_name table_name;
  foreign_keys ← _get_foreign_keys cat schema_name table_name;
  let table_columns :=
    foldl (add_column primary_keys foreign_keys) dict_empty columns in
  print ("table_name = " +:+ table_name);;
  print ("Obtendo os indices para a tabela '" +:+ schema_name +:+ "."
         +:+ table_name +:+ "'");;
  table_indexes ← fetch_indexes cat schema_name table_name;
  table_referenced_by ← fetch_referenced_by cat schema_name table_name;
  mret (mkTable None table_columns table_indexes table_referenced_by).

Definition add_table `{!StrLower} (cat : Catalog) (schema_name : string)
    (tables : dict Table) (table_name : string) : M (dict Table) :=
  table_model ← extract_table cat schema_name table_name;
  mret (dict_set tables table_name table_model).

(** Body of [for schema_name in schemas]. *)
Definition add_schema `{!StrLower} (cat : Catalog) (schemas : dict Schema)
    (schema_name : string) : M (dict Schema) :=
  print ("schema = " +:+ schema_name);;
  tables ← ask (QTableNames schema_name) (get_table_names cat schema_name);
  schema_tables ← for_each (add_table cat schema_name) dict_empty tables;
  mret (dict_set schemas schema_name (mkSchema schema_tables)).

Definition extract_schema `{!StrLower} (cat : Catalog) : M DatabaseModel :=
  names ← ask QSchemaNames (get_schema_names cat);
  let schemas := filter (fun s => s ∉ system_schemas) names in
  database_schemas ← for_each (add_schema cat) dict_empty schemas;
  mret (mkDatabaseModel database_schemas).

(** [extractor.close()] *)
Definition close : M unit :=
  print "Fechando conexão ao banco de dados";;
  emit EClose.

(** ** main *)

Definition JSON_DESTINATION_FILENAME : string := "tmp/schema_documentation.json".

Section main.
Context {python_lower : StrLower}.
(** [database_model.model_dump_json(indent=2, exclude_none=True,
    by_alias=False)], pydantic's serializer. *)
Variable model_dump_json : DatabaseModel -> string.
(** [open(path, "w")]: the text of the exception it raises, if any. *)
Variable open_error : string -> option string.
(** [repr(extractor)], which shows an address. *)
Variable extractor_repr : string.

(** [with open(path, "w") as f: f.write(content)] *)
Definition write_file (path content : string) : M unit :=
  match open_error path with
  | Some s => raise (Exception s)
  | None => emit (EWrite path content)
  end.

(** [main], from the constructed extractor on. *)
Definition main (cat : Catalog) : M unit :=
  print ("type(extractor) = <class '__main__.PostgresSchemaExtractor'>, extractor = "
         +:+ extractor_repr);;
  try_finally
    (try_except
       (database_model ← extract_schema cat;
        let json_output := model_dump_json database_model in
        write_file JSON_DESTINATION_FILENAME json_output)
       (fun e =>
          print ("Erro durante a extração: " +:+ exn_str e);;
          raise (SystemExit 1)))
    close;;
  print (String "010" (String "010" "Documentação gerada com sucesso em "
         +:+ JSON_DESTINATION_FILENAME +:+ String "010" EmptyString)).

(** The exit status of the process that ran [m]. *)
Definition exit_code (m : M unit) : Z :=
  match result m with
  | inr _ => 0
  | inl (SystemExit c) => c
  | inl _ => 1
  end.
End main.

(** [main] from its first statement: the constructor call stands before
    the [try]. *)
Section entry.
Context {python_lower : StrLower}.
Variable model_dump_json : DatabaseModel -> string.
Variable open_error : string -> option string.
Variable extractor_repr : string.
(** The call of the constructor [PostgresSchemaExtractor]: the text of the
    exception it raises, if any. *)
Variable construct_error : option string.

Definition main_from_start (cat : Catalog) : M unit :=
  match construct_error with
  | Some msg => raise (Exception msg)
  | None => main model_dump_json open_error extractor_repr cat
  end.
End entry.

(** ** Vocabulary of the statements *)

(** The loop [for r in rows: if keep(r): d[key(r)] = val(r)], of which the
    dictionary comprehensions and the column and index loops are
    instances. *)
Section fill.
Context {R V : Type} (keep : R -> Prop) `{!forall r, Decision (keep r)}.
Context (key : R -> string) (val : R -> V).

Definition fill_step (d : dict V) (r : R) : dict V :=
  if decide (keep r) then dict_set d (key r) (val r) else d.

Definition fill (d : dict V) (rows : list R) : dict V :=
  foldl fill_step d rows.
End fill.

(** [tbl] is the [Table] stored under [table_name] in the [Schema] stored
    under [schema_name] of the model that [extract_schema] returns. *)
Definition assembled `{!StrLower} (cat : Catalog)
    (schema_name table_name : string)
    (tbl : Table) : Prop :=
  exists db sch,
    result (extract_schema cat) = inr db /\
    dict_get (db_schemas db) schema_name = Some sch /\
    dict_get (sch_tables sch) table_name = Some tbl.

(** The [ForeignKey] and the [ReferencedBy] built from one row. *)
Definition fk_of_row (row : FkRow) : ForeignKey :=
  mkForeignKey (fkr_target_table row) (fkr_target_column row)
               (fkr_constraint_name row).

Definition ref_of_row (row : RefRow) : ReferencedBy :=
  mkReferencedBy (rr_source_table row) [rr_source_column row]
                 (rr_constraint_name row).

(** The [Index] built from one entry of [get_indexes]. *)
Definition index_of_info `{!StrLower} (idx : IndexInfo) : Index :=
  mkIndex (ii_name idx) (ii_column_names idx) (ii_unique idx)
          (Some (str_lower (default "btree" (ii_type idx)))).

(** The call raised. *)
Definition is_error {A} (a : answer A) : Prop :=
  match a with inl _ => True | inr _ => False end.

(** The catalog raises on the call [q]. *)
Definition raises (cat : Catalog) (q : query) : Prop :=
  match q with
  | QSchemaNames => is_error (get_schema_names cat)
  | QTableNames schema => is_error (get_table_names cat schema)
  | QColumns table schema => is_error (get_columns cat table schema)
  | QIndexes table schema => is_error (get_indexes cat table schema)
  | QPrimaryKeys full_table_name =>
      is_error (execute_primary_keys cat full_table_name)
  | QForeignKeys schema table => is_error (execute_foreign_keys cat schema table)
  | QReferencedBy schema table =>
      is_error (execute_referenced_by cat schema table)
  end.

(** An event of the extraction proper: a line printed or a catalog call. *)
Definition reads_only (ev : event) : Prop :=
  match ev with
  | EPrint _ | EQuery _ => True
  | EWrite _ _ | EClose => False
  end.

(** A computation that only prints and reads the catalog, and that fails
    only by stopping at a call on which the catalog raises, with an
    exception that [except Exception] catches. *)
Definition fail_fast {A} (cat : Catalog) (m : M A) : Prop :=
  Forall reads_only (trace m) /\
  forall e, result m = inl e ->
    is_Exception e = true /\
    exists tr q, trace m = tr ++ [EQuery q] /\ raises cat q.

(** Not the listing of the tables of a schema. *)
Definition not_table_listing (ev : event) : Prop :=
  forall schema, ev ≠ EQuery (QTableNames schema).

(** ** A sample catalog

    Schema [public] with [customers], [orders] and [order_items]; the last
    has a composite primary key, [orders] has two constraints on
    [customer_id], and [order_items] points at [orders] through two
    constraints. *)
Module Sample.
#[local] Existing Instance ascii_str_lower.

Definition schema_names : list string :=
  ["information_schema"; "public"; "pg_catalog"].

Definition table_names (schema : string) : list string :=
  if decide (schema = "public") then ["customers"; "orders"; "order_items"]
  else [].

Definition columns (table schema : string) : list ColumnInfo :=
  if decide (schema = "public") then
    if decide (table = "customers") then
      [mkColumnInfo "id" "INTEGER" false (Some "nextval('customers_id_seq'::regclass)");
       mkColumnInfo "name" "VARCHAR(80)" true None]
    else if decide (table = "orders") then
      [mkColumnInfo "id" "INTEGER" false None;
       mkColumnInfo "customer_id" "INTEGER" false None]
    else if decide (table = "order_items") then
      [mkColumnInfo "order_id" "INTEGER" false None;
       mkColumnInfo "product_id" "INTEGER" false None;
       mkColumnInfo "quantity" "INTEGER" true (Some "1")]
    else []
  else [].

Definition primary_keys (full_table_name : string) : list string :=
  if decide (full_table_name = "public.customers") then ["id"]
  else if decide (full_table_name = "public.orders") then ["id"]
  else if decide (full_table_name = "public.order_items") then
    ["product_id"; "order_id"]
  else [].

Definition foreign_keys (schema table : string) : list FkRow :=
  if decide (schema = "public") then
    if decide (table = "orders") then
      [mkFkRow "customer_id" "customers" "id" "orders_customer_fk";
       mkFkRow "customer_id" "customers" "id" "orders_customer_fk2"]
    else if decide (table = "order_items") then
      [mkFkRow "order_id" "orders" "id" "items_order_fk"]
    else []
  else [].

Definition indexes (table schema : string) : list IndexInfo :=
  if decide (schema = "public") then
    if decide (table = "orders") then
      [mkIndexInfo "PRIMARY" ["id"] true None;
       mkIndexInfo "orders_id_key" ["id"] true None;
       mkIndexInfo "orders_customer_idx" ["customer_id"] false (Some "HASH")]
    else if decide (table = "order_items") then
      [mkIndexInfo "items_idx" ["order_id"; "product_id"] false (Some "BTree")]
    else []
  else [].

Definition referenced_by (schema table : string) : list RefRow :=
  if decide (schema = "public") then
    if decide (table = "customers") then
      [mkRefRow "orders" "id" "orders_customer_fk";
       mkRefRow "orders" "id" "orders_customer_fk2"]
    else if decide (table = "orders") then
      [mkRefRow "order_items" "id" "items_order_fk"]
    else []
  else [].

Definition catalog : Catalog :=
  {| get_schema_names := inr schema_names;
     get_table_names := fun s => inr (table_names s);
     get_columns := fun t s => inr (columns t s);
     get_indexes := fun t s => inr (indexes t s);
     execute_primary_keys := fun f => inr (primary_keys f);
     execute_foreign_keys := fun s t => inr (foreign_keys s t);
     execute_referenced_by := fun s t => inr (referenced_by s t) |}.

(** The same database, whose index lookup raises on [orders]. *)
Definition broken_indexes : Catalog :=
  {| get_schema_names := inr schema_names;
     get_table_names := fun s => inr (table_names s);
     get_columns := fun t s => inr (columns t s);
     get_indexes := fun t s =>
       if decide (t = "orders") then inl "permission denied"
       else inr (indexes t s);
     execute_primary_keys := fun f => inr (primary_keys f);
     execute_foreign_keys := fun s t => inr (foreign_keys s t);
     execute_referenced_by := fun s t => inr (referenced_by s t) |}.

(** What [extract_schema] returns on [catalog]. *)
Definition model : DatabaseModel :=
  match result (extract_schema catalog) with
  | inr db => db
  | inl _ => mkDatabaseModel dict_empty
  end.

Definition public : Schema :=
  default (mkSchema dict_empty) (dict_get (db_schemas model) "public").

Definition table (table_name : string) : Table :=
  default (mkTable None dict_empty dict_empty dict_empty)
          (dict_get (sch_tables public) table_name).

Definition column (table_name column_name : string) : Column :=
  default (mkColumn "" "" false None false None)
          (dict_get (tbl_columns (table table_name)) column_name).

Definition index (table_name index_name : string) : Index :=
  default (mkIndex "" [] false None)
          (dict_get (tbl_indexes (table table_name)) index_name).
End Sample.

(** ** Vocabulary of the further statements *)

(** The text of the exception with which a call is answered, if it is. *)
Definition error_text {A} (a : answer A) : option string :=
  match a with inl msg => Some msg | inr _ => None end.

(** The text of the exception that the catalog raises on the call [q]. *)
Definition raised_text (cat : Catalog) (q : query) : option string :=
  match q with
  | QSchemaNames => error_text (get_schema_names cat)
  | QTableNames schema => error_text (get_table_names cat schema)
  | QColumns table schema => error_text (get_columns cat table schema)
  | QIndexes table schema => error_text (get_indexes cat table schema)
  | QPrimaryKeys full_table_name =>
      error_text (execute_primary_keys cat full_table_name)
  | QForeignKeys schema table =>
      error_text (execute_foreign_keys cat schema table)
  | QReferencedBy schema table =>
      error_text (execute_referenced_by cat schema table)
  end.

(** The five catalog calls made for one table, in the order of the loop
    body. *)
Definition table_calls (schema_name table_name : string) : list query :=
  [QColumns table_name schema_name;
   QPrimaryKeys (schema_name +:+ "." +:+ table_name);
   QForeignKeys schema_name table_name;
   QIndexes table_name schema_name;
   QReferencedBy schema_name table_name].

(** [s] is a schema that the traversal keeps: reported and not a system
    schema. *)
Definition kept_schema (cat : Catalog) (s : string) : Prop :=
  exists names,
    get_schema_names cat = inr names /\ s ∈ names /\ s ∉ system_schemas.

(** [t] is a table that the catalog lists for the kept schema [s]. *)
Definition listed_table (cat : Catalog) (s t : string) : Prop :=
  kept_schema cat s /\
  exists tables, get_table_names cat s = inr tables /\ t ∈ tables.

(** The call [q] concerns a kept schema, and a listed table of it when it
    is one of the calls made per table. *)
Definition call_in_scope (cat : Catalog) (q : query) : Prop :=
  match q with
  | QSchemaNames => True
  | QTableNames s => kept_schema cat s
  | QColumns t s | QIndexes t s => listed_table cat s t
  | QForeignKeys s t | QReferencedBy s t => listed_table cat s t
  | QPrimaryKeys full_table_name =>
      exists s t, listed_table cat s t /\ full_table_name = s +:+ "." +:+ t
  end.

Definition event_in_scope (cat : Catalog) (ev : event) : Prop :=
  match ev with
  | EQuery q => call_in_scope cat q
  | _ => True
  end.

(** The catalog calls of a run, in order. *)
Definition calls (tr : list event) : list query :=
  omap (fun ev => match ev with EQuery q => Some q | _ => None end) tr.

(** The files written by a run, in order. *)
Definition writes (tr : list event) : list (string * string) :=
  omap (fun ev => match ev with
                  | EWrite path content => Some (path, content)
                  | _ => None
                  end) tr.

(** How many times the extractor was closed. *)
Definition closes (tr : list event) : nat :=
  length (omap (fun ev => match ev with EClose => Some tt | _ => None end) tr).

(** The exception that leaves [extract_schema] when the call [q] raises
    with the text [msg]: the two handlers of the loop body replace what
    the index listing and the reverse-reference query raise, the other
    calls are outside of them. *)
Definition surfaced (q : query) (msg : string) : exn :=
  match q with
  | QIndexes _ _ => SchemaValueError (index_error_msg (Exception msg))
  | QReferencedBy s t =>
      SchemaValueError (referenced_by_error_msg s t (Exception msg))
  | _ => Exception msg
  end.

(** A computation that fails only by stopping at a call on which the
    catalog raises, with the exception that this call surfaces as. *)
Definition stops_with {A} (cat : Catalog) (m : M A) : Prop :=
  forall e, result m = inl e ->
    exists tr q msg,
      trace m = tr ++ [EQuery q] /\
      raised_text cat q = Some msg /\ e = surfaced q msg.

(** The tables that the catalog lists for a schema. *)
Definition tables_of (cat : Catalog) (s : string) : list string :=
  match get_table_names cat s with inr tables => tables | inl _ => [] end.

(** The calls of a complete traversal of the schemas [names]: the listing
    of the schemas, then for each schema kept its table listing followed
    by the five calls of each of its tables. *)
Definition schedule (cat : Catalog) (names : list string) : list query :=
  QSchemaNames ::
  concat ((fun s => QTableNames s :: concat (table_calls s <$> tables_of cat s))
          <$> filter (fun s => s ∉ system_schemas) names).

(** A computation that returns only after calls that the catalog
    answered. *)
Definition answered {A} (cat : Catalog) (m : M A) : Prop :=
  forall a, result m = inr a ->
    forall q, EQuery q ∈ trace m -> raised_text cat q = None.

(** ** Further catalogs *)
Module Cases.
(** The sample database, whose reverse-reference query raises on
    [orders]. *)
Definition broken_referenced_by : Catalog :=
  {| get_schema_names := inr Sample.schema_names;
     get_table_names := fun s => inr (Sample.table_names s);
     get_columns := fun t s => inr (Sample.columns t s);
     get_indexes := fun t s => inr (Sample.indexes t s);
     execute_primary_keys := fun f => inr (Sample.primary_keys f);
     execute_foreign_keys := fun s t => inr (Sample.foreign_keys s t);
     execute_referenced_by := fun s t =>
       if decide (t = "orders") then inl "catalog unavailable"
       else inr (Sample.referenced_by s t) |}.

(** The sample database, whose primary-key query raises on
    [public.orders]. *)
Definition broken_primary_keys : Catalog :=
  {| get_schema_names := inr Sample.schema_names;
     get_table_names := fun s => inr (Sample.table_names s);
     get_columns := fun t s => inr (Sample.columns t s);
     get_indexes := fun t s => inr (Sample.indexes t s);
     execute_primary_keys := fun f =>
       if decide (f = "public.orders") then inl "relation does not exist"
       else inr (Sample.primary_keys f);
     execute_foreign_keys := fun s t => inr (Sample.foreign_keys s t);
     execute_referenced_by := fun s t => inr (Sample.referenced_by s t) |}.

(** What the run on [broken_referenced_by] raises. *)
Definition reference_error : exn :=
  SchemaValueError
    (referenced_by_error_msg "public" "orders" (Exception "catalog unavailable")).
End Cases.

(** * Properties *)

Section properties.
Context {python_lower : StrLower}.

(** ** Strings *)

Lemma append_cons (c : ascii) (s s' : string) :
  String c s +:+ s' = String c (s +:+ s').
Proof. reflexivity. Qed.

Lemma append_nil (s : string) : EmptyString +:+ s = s.
Proof. reflexivity. Qed.

Lemma prefix_app (n h : string) :
  String.prefix n h = true <-> exists post, h = n +:+ post.
Proof.
  revert h. induction n as [|c n IH]; intros h.
  - destruct h; simpl; (split; [intros _; by eexists | done]).
  - destruct h as [|c' h]; simpl.
    + split; [done | intros [post Hp]; discriminate].
    + destruct (Ascii.ascii_dec c c') as [->|Hne].
      * rewrite IH. split; intros [post Hp]; exists post;
          rewrite append_cons in *; congruence.
      * split; [done | intros [post Hp]; rewrite append_cons in Hp; congruence].
Qed.

(** [contains] decides whether the needle occurs in the text. *)
Lemma contains_spec (n h : string) :
  contains n h = true <-> exists pre post, h = pre +:+ n +:+ post.
Proof.
  induction h as [|c h IH]; cbn [contains].
  - rewrite orb_false_r, prefix_app. split.
    + intros [post Hp]. by exists EmptyString, post.
    + intros [pre [post Hp]]. destruct pre; [by exists post | discriminate].
  - rewrite orb_true_iff, prefix_app, IH. split.
    + intros [[post Hp] | [pre [post Hp]]].
      * by exists EmptyString, post.
      * exists (String c pre), post. by rewrite append_cons, Hp.
    + intros [pre [post Hp]]. destruct pre as [|c' pre].
      * left. by exists post.
      * right. exists pre, post. rewrite append_cons in Hp. congruence.
Qed.

Lemma lower_btree : lower "btree" = "btree".
Proof. reflexivity. Qed.

(** ** Dictionaries *)

Section dict_facts.
Context {V : Type}.
Implicit Types (d : dict V) (k : string) (v : V).

Lemma dict_get_set_eq d k v : dict_get (dict_set d k v) k = Some v.
Proof.
  induction d as [|[k' v'] d IH]; simpl.
  - by rewrite decide_True.
  - destruct (decide (k' = k)) as [->|Hne]; simpl.
    + by rewrite decide_True.
    + by rewrite decide_False.
Qed.

Lemma dict_get_set_ne d k k' v :
  k ≠ k' -> dict_get (dict_set d k v) k' = dict_get d k'.
Proof.
  intros Hne. induction d as [|[k0 v0] d IH]; simpl.
  - by rewrite decide_False.
  - destruct (decide (k0 = k)) as [->|Hne0]; simpl.
    + by rewrite !decide_False.
    + by rewrite IH.
Qed.

Lemma dict_get_set d k k' v :
  dict_get (dict_set d k v) k' =
  if decide (k = k') then Some v else dict_get d k'.
Proof.
  destruct (decide (k = k')) as [->|Hne];
    [apply dict_get_set_eq | by apply dict_get_set_ne].
Qed.

Lemma dict_get_elem_of d k v : dict_get d k = Some v -> (k, v) ∈ d.
Proof.
  induction d as [|[k' v'] d IH]; simpl; [done|].
  destruct (decide (k' = k)) as [->|Hne].
  - intros [= ->]. apply list_elem_of_here.
  - intros H. apply list_elem_of_further. auto.
Qed.

Lemma dict_get_None d k : dict_get d k = None <-> k ∉ dict_keys d.
Proof.
  unfold dict_keys. induction d as [|[k' v'] d IH]; simpl.
  - split; [intros _; apply not_elem_of_nil | done].
  - rewrite not_elem_of_cons. destruct (decide (k' = k)) as [->|Hne].
    + split; [done | intros [? _]; done].
    + rewrite IH. split; [intros ?; split; [congruence | done] | by intros [_ ?]].
Qed.

Lemma dict_get_is_Some d k : is_Some (dict_get d k) <-> k ∈ dict_keys d.
Proof.
  destruct (dict_get d k) as [v|] eqn:Hg.
  - split; [intros _ | by eauto].
    destruct (decide (k ∈ dict_keys d)) as [|Hn]; [done|].
    apply dict_get_None in Hn. congruence.
  - split; [by intros [? ?] |]. intros Hin.
    apply dict_get_None in Hg. done.
Qed.

Lemma elem_of_dict_get d k v :
  NoDup (dict_keys d) -> (k, v) ∈ d -> dict_get d k = Some v.
Proof.
  unfold dict_keys. induction d as [|[k' v'] d IH]; simpl.
  - intros _ Hin. by apply elem_of_nil in Hin.
  - rewrite NoDup_cons. intros [Hnotin Hnd] Hin.
    apply elem_of_cons in Hin as [[= -> ->] | Hin].
    + by rewrite decide_True.
    + destruct (decide (k' = k)) as [->|Hne]; [|by apply IH].
      exfalso. apply Hnotin. apply list_elem_of_fmap. by exists (k, v).
Qed.

Lemma dict_keys_set d k v :
  forall k', k' ∈ dict_keys (dict_set d k v) <-> k' = k ∨ k' ∈ dict_keys d.
Proof.
  intros k'. rewrite <- !dict_get_is_Some, dict_get_set.
  destruct (decide (k = k')) as [->|Hne].
  - split; [by left | by eauto].
  - split; [by right | intros [-> | ?]; done].
Qed.

(** Assignment never duplicates a key. *)
Lemma dict_set_NoDup d k v :
  NoDup (dict_keys d) -> NoDup (dict_keys (dict_set d k v)).
Proof.
  unfold dict_keys. induction d as [|[k' v'] d IH]; simpl.
  - intros _. apply NoDup_singleton.
  - rewrite NoDup_cons. intros [Hnotin Hnd].
    destruct (decide (k' = k)) as [->|Hne]; simpl.
    + by apply NoDup_cons.
    + apply NoDup_cons. split; [|by apply IH].
      intros Hin. apply (dict_keys_set d k v k') in Hin as [?|?]; done.
Qed.

(** Every entry of a dictionary after an assignment is the one assigned
    or was there before. *)
Lemma elem_of_dict_set d k v k' v' :
  (k', v') ∈ dict_set d k v -> (k' = k ∧ v' = v) ∨ (k', v') ∈ d.
Proof.
  induction d as [|[k0 v0] d IH]; simpl.
  - intros Hin. apply list_elem_of_singleton in Hin as [= -> ->]. by left.
  - destruct (decide (k0 = k)) as [->|Hne].
    + intros Hin. apply elem_of_cons in Hin as [[= -> ->] | Hin]; [by left|].
      right. by apply list_elem_of_further.
    + intros Hin. apply elem_of_cons in Hin as [[= -> ->] | Hin].
      * right. apply list_elem_of_here.
      * destruct (IH Hin) as [?|?]; [by left|].
        right. by apply list_elem_of_further.
Qed.
End dict_facts.

Section fill_facts.
Context {R V : Type} (keep : R -> Prop) `{!forall r, Decision (keep r)}.
Context (key : R -> string) (val : R -> V).
Implicit Types (d : dict V) (rows : list R).

Local Abbreviation fill := (fill keep key val).
Local Abbreviation fill_step := (fill_step keep key val).

Lemma fill_cons d r rows : fill d (r :: rows) = fill (fill_step d r) rows.
Proof. reflexivity. Qed.

Lemma fill_app d rows rows' : fill d (rows ++ rows') = fill (fill d rows) rows'.
Proof. apply foldl_app. Qed.

Lemma fill_NoDup d rows :
  NoDup (dict_keys d) -> NoDup (dict_keys (fill d rows)).
Proof.
  revert d. induction rows as [|r rows IH]; intros d Hd; [done|].
  rewrite fill_cons. apply IH. unfold fill_step.
  case_decide; [by apply dict_set_NoDup | done].
Qed.

(** Rows with other keys leave the entry of [k] alone. *)
Lemma fill_get_other d rows k :
  (forall r, r ∈ rows -> keep r -> key r ≠ k) ->
  dict_get (fill d rows) k = dict_get d k.
Proof.
  revert d. induction rows as [|r rows IH]; intros d Hne; [done|].
  rewrite fill_cons, IH.
  - unfold fill_step. case_decide; [|done].
    apply dict_get_set_ne. apply Hne; [apply list_elem_of_here | done].
  - intros r' Hin. apply Hne. by apply list_elem_of_further.
Qed.

(** Last write wins: the entry of a key is built from the last kept row
    that has this key. *)
Lemma fill_get_last d pre r post :
  keep r ->
  (forall r', r' ∈ post -> keep r' -> key r' ≠ key r) ->
  dict_get (fill d (pre ++ r :: post)) (key r) = Some (val r).
Proof.
  intros Hk Hpost. rewrite fill_app, fill_cons, fill_get_other by done.
  unfold fill_step. rewrite decide_True by done. apply dict_get_set_eq.
Qed.

Lemma fill_elem_of d rows k v :
  (k, v) ∈ fill d rows ->
  (k, v) ∈ d ∨ exists r, r ∈ rows ∧ keep r ∧ key r = k ∧ val r = v.
Proof.
  revert d. induction rows as [|r rows IH]; intros d Hin; [by left|].
  rewrite fill_cons in Hin. apply IH in Hin as [Hin | (r' & Hr' & ?)].
  - unfold fill_step in Hin. case_decide; [|by left].
    apply elem_of_dict_set in Hin as [[-> ->] | Hin]; [|by left].
    right. exists r. split; [apply list_elem_of_here | done].
  - right. exists r'. split; [by apply list_elem_of_further | done].
Qed.

Lemma fill_keys d rows k :
  k ∈ dict_keys (fill d rows) <->
  k ∈ dict_keys d ∨ exists r, r ∈ rows ∧ keep r ∧ key r = k.
Proof.
  revert d. induction rows as [|r rows IH]; intros d.
  - split; [by left | intros [? | (r & Hr & _)]; [done|]].
    by apply elem_of_nil in Hr.
  - rewrite fill_cons, IH. unfold fill_step. split.
    + intros [Hin | (r' & Hr' & ?)].
      * case_decide; [|by left].
        apply dict_keys_set in Hin as [-> | Hin]; [|by left].
        right. exists r. split; [apply list_elem_of_here | done].
      * right. exists r'. split; [by apply list_elem_of_further | done].
    + intros [Hin | (r' & Hr' & Hk & Hkey)].
      * left. case_decide; [|done]. apply dict_keys_set. by right.
      * apply elem_of_cons in Hr' as [-> | Hr'].
        -- left. rewrite decide_True by done. apply dict_keys_set. by left.
        -- right. by exists r'.
Qed.
End fill_facts.

(** The loops of the extractor as instances of [fill]. *)
Lemma dict_comprehension_fill {R V} (key : R -> string) (val : R -> V) rows :
  dict_comprehension key val rows = fill (fun _ => True) key val dict_empty rows.
Proof. reflexivity. Qed.

Lemma columns_fill pks fks cols :
  foldl (add_column pks fks) dict_empty cols =
  fill (fun _ => True) ci_name (build_column pks fks) dict_empty cols.
Proof. reflexivity. Qed.

Lemma indexes_fill rows :
  foldl add_index dict_empty rows =
  fill (fun idx => ii_name idx ≠ "PRIMARY") ii_name index_of_info dict_empty rows.
Proof. reflexivity. Qed.

(** ** Computations *)

Section monad_facts.
Context {A B : Type}.

Lemma result_bind (m : M A) (f : A -> M B) :
  result (m ≫= f) =
  match result m with inl e => inl e | inr a => result (f a) end.
Proof.
  destruct m as [tr [e|a]]; [done|].
  unfold mbind, M_bind, bind, result. simpl. by destruct (f a).
Qed.

Lemma trace_bind (m : M A) (f : A -> M B) :
  trace (m ≫= f) =
  trace m ++ match result m with inl _ => [] | inr a => trace (f a) end.
Proof.
  destruct m as [tr [e|a]]; unfold mbind, M_bind, bind, trace, result; simpl.
  - by rewrite app_nil_r.
  - by destruct (f a).
Qed.

Lemma bind_inr (m : M A) (f : A -> M B) b :
  result (m ≫= f) = inr b ->
  exists a, result m = inr a ∧ result (f a) = inr b.
Proof. rewrite result_bind. destruct (result m); [done | by eauto]. Qed.

Lemma result_ret (a : A) : result (mret a : M A) = inr a.
Proof. reflexivity. Qed.

Lemma result_ask q (a : answer A) :
  result (ask q a) =
  match a with inl s => inl (Exception s) | inr rows => inr rows end.
Proof. by destruct a. Qed.

Lemma trace_ask q (a : answer A) : trace (ask q a) = [EQuery q].
Proof. by destruct a. Qed.

Lemma ask_inr q (a : answer A) rows : result (ask q a) = inr rows -> a = inr rows.
Proof. destruct a; simpl; [done | by intros [= ->]]. Qed.
End monad_facts.

Section for_each_facts.
Context {A X : Type} (body : A -> X -> M A).

Lemma for_each_cons acc x xs :
  for_each body acc (x :: xs) = (body acc x ≫= fun acc' => for_each body acc' xs).
Proof. reflexivity. Qed.

(** A property of the accumulator that every completed iteration
    preserves holds of the value the loop returns. *)
Lemma for_each_inv (P : A -> Prop) xs acc r :
  P acc ->
  (forall a x a', x ∈ xs -> P a -> result (body a x) = inr a' -> P a') ->
  result (for_each body acc xs) = inr r ->
  P r.
Proof.
  revert acc. induction xs as [|x xs IH]; intros acc Hacc Hstep Hr.
  - by injection Hr as <-.
  - rewrite for_each_cons in Hr. apply bind_inr in Hr as (a' & Hb & Hr).
    apply (IH a'); [|by eauto using list_elem_of_further | done].
    apply (Hstep acc x); [apply list_elem_of_here | done | done].
Qed.

(** A loop that returns has completed the body for every element. *)
Lemma for_each_inr_each xs acc r x :
  result (for_each body acc xs) = inr r ->
  x ∈ xs ->
  exists a a', result (body a x) = inr a'.
Proof.
  revert acc. induction xs as [|y xs IH]; intros acc Hr Hin.
  - by apply elem_of_nil in Hin.
  - rewrite for_each_cons in Hr. apply bind_inr in Hr as (a' & Hb & Hr).
    apply elem_of_cons in Hin as [-> | Hin]; [by eauto | by eapply IH].
Qed.
End for_each_facts.

(** ** The lookups *)

Lemma get_primary_keys_result cat s t :
  result (_get_primary_keys cat s t) =
  match execute_primary_keys cat (s +:+ "." +:+ t) with
  | inl msg => inl (Exception msg)
  | inr rows => inr rows
  end.
Proof.
  unfold _get_primary_keys. rewrite result_bind, result_ask.
  by destruct (execute_primary_keys _ _).
Qed.

Lemma get_foreign_keys_result cat s t :
  result (_get_foreign_keys cat s t) =
  match execute_foreign_keys cat s t with
  | inl msg => inl (Exception msg)
  | inr rows => inr (dict_comprehension fkr_column_name fk_of_row rows)
  end.
Proof.
  unfold _get_foreign_keys. rewrite result_bind, result_ask.
  by destruct (execute_foreign_keys _ _ _).
Qed.

Lemma get_referenced_by_result cat s t :
  result (_get_referenced_by cat s t) =
  match execute_referenced_by cat s t with
  | inl msg => inl (Exception msg)
  | inr rows => inr (dict_comprehension rr_source_table ref_of_row rows)
  end.
Proof.
  unfold _get_referenced_by. rewrite result_bind, result_ask.
  by destruct (execute_referenced_by _ _ _).
Qed.

Lemma result_try_except {A} (m : M A) (h : exn -> M A) :
  result (try_except m h) =
  match result m with
  | inl e => if is_Exception e then result (h e) else inl e
  | inr a => inr a
  end.
Proof.
  destruct m as [tr [e|a]]; [|done]. unfold try_except, result. simpl.
  destruct (is_Exception e); [by destruct (h e) | done].
Qed.

Lemma trace_try_except {A} (m : M A) (h : exn -> M A) :
  trace (try_except m h) =
  trace m ++ match result m with
             | inl e => if is_Exception e then trace (h e) else []
             | inr _ => []
             end.
Proof.
  destruct m as [tr [e|a]]; unfold try_except, trace, result; simpl.
  - destruct (is_Exception e); [by destruct (h e) | by rewrite app_nil_r].
  - by rewrite app_nil_r.
Qed.

Lemma fetch_indexes_result cat s t :
  result (fetch_indexes cat s t) =
  match get_indexes cat t s with
  | inl msg => inl (SchemaValueError (index_error_msg (Exception msg)))
  | inr rows => inr (foldl add_index dict_empty rows)
  end.
Proof.
  unfold fetch_indexes. rewrite result_try_except, result_bind, result_ask.
  by destruct (get_indexes _ _ _).
Qed.

Lemma fetch_referenced_by_result cat s t :
  result (fetch_referenced_by cat s t) =
  match execute_referenced_by cat s t with
  | inl msg =>
      inl (SchemaValueError (referenced_by_error_msg s t (Exception msg)))
  | inr rows => inr (dict_comprehension rr_source_table ref_of_row rows)
  end.
Proof.
  unfold fetch_referenced_by.
  rewrite result_try_except, get_referenced_by_result.
  by destruct (execute_referenced_by _ _ _).
Qed.

(** ** One table *)

(** What a [Table] returned for [(s, t)] is made of. *)
Lemma extract_table_inr cat s t tbl :
  result (extract_table cat s t) = inr tbl ->
  exists cols pks fks rows refs,
    get_columns cat t s = inr cols ∧
    result (_get_primary_keys cat s t) = inr pks ∧
    result (_get_foreign_keys cat s t) = inr fks ∧
    get_indexes cat t s = inr rows ∧
    result (_get_referenced_by cat s t) = inr refs ∧
    tbl = mkTable None (foldl (add_column pks fks) dict_empty cols)
                  (foldl add_index dict_empty rows) refs.
Proof.
  unfold extract_table. intros H.
  apply bind_inr in H as (cols & Hcols & H). apply ask_inr in Hcols.
  apply bind_inr in H as (pks & Hpks & H).
  apply bind_inr in H as (fks & Hfks & H).
  apply bind_inr in H as ([] & _ & H).
  apply bind_inr in H as ([] & _ & H).
  apply bind_inr in H as (idxs & Hidx & H).
  apply bind_inr in H as (refs & Href & H).
  rewrite result_ret in H. injection H as <-.
  rewrite fetch_indexes_result in Hidx.
  destruct (get_indexes cat t s) as [|rows] eqn:Hrows; [done|].
  injection Hidx as <-.
  rewrite fetch_referenced_by_result in Href.
  exists cols, pks, fks, rows, refs. repeat split; try done.
  rewrite get_referenced_by_result.
  by destruct (execute_referenced_by cat s t).
Qed.

(** ** The traversal *)

(** Every table of the returned model is the one [extract_table] returns
    for its schema and name. *)
Lemma assembled_extract_table cat s t tbl :
  assembled cat s t tbl -> result (extract_table cat s t) = inr tbl.
Proof.
  intros (db & sch & Hdb & Hs & Ht). unfold extract_schema in Hdb.
  apply bind_inr in Hdb as (names & _ & Hdb).
  apply bind_inr in Hdb as (schemas & Hloop & Hdb).
  rewrite result_ret in Hdb. injection Hdb as <-. simpl in Hs.
  revert s sch t tbl Hs Ht.
  eapply (for_each_inv (add_schema cat)
    (fun acc => forall s sch t tbl,
       dict_get acc s = Some sch -> dict_get (sch_tables sch) t = Some tbl ->
       result (extract_table cat s t) = inr tbl) _ dict_empty);
    [done | | exact Hloop].
  intros acc s' acc' _ IH Hbody s sch t tbl Hs Ht. unfold add_schema in Hbody.
  apply bind_inr in Hbody as ([] & _ & Hbody).
  apply bind_inr in Hbody as (tables & _ & Hbody).
  apply bind_inr in Hbody as (schema_tables & Htables & Hbody).
  rewrite result_ret in Hbody. injection Hbody as <-.
  rewrite dict_get_set in Hs. case_decide as Heq; [|by eapply IH].
  subst s'. injection Hs as <-. simpl in Ht. revert t tbl Ht.
  eapply (for_each_inv (add_table cat s)
    (fun tacc => forall t tbl,
       dict_get tacc t = Some tbl -> result (extract_table cat s t) = inr tbl)
    _ dict_empty);
    [done | | exact Htables].
  intros tacc t' tacc' _ IHt Hbody t tbl Ht. unfold add_table in Hbody.
  apply bind_inr in Hbody as (table_model & Htm & Hbody).
  rewrite result_ret in Hbody. injection Hbody as <-.
  rewrite dict_get_set in Ht. case_decide as Heq; [|by eapply IHt].
  subst t'. by injection Ht as <-.
Qed.

(** ** Columns *)

Lemma build_column_name pks fks r : col_name (build_column pks fks r) = ci_name r.
Proof. unfold build_column, dict_mem. by destruct (dict_get fks (ci_name r)). Qed.

Lemma build_column_primary_key pks fks r :
  col_primary_key (build_column pks fks r) = bool_decide (ci_name r ∈ pks).
Proof. unfold build_column, dict_mem. by destruct (dict_get fks (ci_name r)). Qed.

Lemma build_column_foreign_key pks fks r :
  col_foreign_key (build_column pks fks r) = dict_get fks (ci_name r).
Proof. unfold build_column, dict_mem. by destruct (dict_get fks (ci_name r)). Qed.

(** Every entry of the column mapping is built from a row of [get_columns]
    with the results of the two key lookups. *)
Lemma assembled_column cat s t tbl c col :
  assembled cat s t tbl ->
  (c, col) ∈ tbl_columns tbl ->
  exists pks fks r,
    result (_get_primary_keys cat s t) = inr pks ∧
    result (_get_foreign_keys cat s t) = inr fks ∧
    ci_name r = c ∧ col = build_column pks fks r.
Proof.
  intros Hasm Hin. apply assembled_extract_table, extract_table_inr in Hasm
    as (cols & pks & fks & rows & refs & _ & Hpk & Hfk & _ & _ & ->).
  simpl in Hin. rewrite columns_fill in Hin.
  apply fill_elem_of in Hin as [Hin | (r & _ & _ & Hk & Hv)].
  - by apply elem_of_nil in Hin.
  - by exists pks, fks, r.
Qed.

(** C1. In every table of the model that [extract_schema] returns, a
    column's [primary_key] flag is true exactly when the column's name is
    in the list that the primary-key lookup returns for that schema and
    table; the lookup did return a list. *)
Theorem primary_key_flag_iff_member cat s t tbl c col :
  assembled cat s t tbl ->
  dict_get (tbl_columns tbl) c = Some col ->
  exists pks,
    result (_get_primary_keys cat s t) = inr pks ∧
    (col_primary_key col = true <-> col_name col ∈ pks).
Proof.
  intros Hasm Hget. apply dict_get_elem_of in Hget.
  destruct (assembled_column _ _ _ _ _ _ Hasm Hget)
    as (pks & fks & r & Hpk & _ & _ & ->).
  exists pks. split; [done|].
  rewrite build_column_primary_key, build_column_name.
  apply bool_decide_eq_true.
Qed.

(** C2. In every table of the model that [extract_schema] returns, a
    column's [foreign_key] is present exactly when the column's name is a
    key of the mapping that the foreign-key lookup returns for that table,
    and then it is the value stored under that key. *)
Theorem foreign_key_present_iff_key cat s t tbl c col :
  assembled cat s t tbl ->
  dict_get (tbl_columns tbl) c = Some col ->
  exists fks,
    result (_get_foreign_keys cat s t) = inr fks ∧
    (is_Some (col_foreign_key col) <-> col_name col ∈ dict_keys fks) ∧
    (forall fk, col_foreign_key col = Some fk ->
                dict_get fks (col_name col) = Some fk).
Proof.
  intros Hasm Hget. apply dict_get_elem_of in Hget.
  destruct (assembled_column _ _ _ _ _ _ Hasm Hget)
    as (pks & fks & r & _ & Hfk & _ & ->).
  exists fks. rewrite build_column_foreign_key, build_column_name.
  split; [done|]. split; [apply dict_get_is_Some | done].
Qed.

(** ** Indexes *)

(** Every entry of the index mapping is built from a row of [get_indexes]
    whose name is not the sentinel. *)
Lemma assembled_index cat s t tbl k idx :
  assembled cat s t tbl ->
  (k, idx) ∈ tbl_indexes tbl ->
  exists rows row,
    get_indexes cat t s = inr rows ∧ row ∈ rows ∧
    ii_name row ≠ "PRIMARY" ∧ ii_name row = k ∧ idx = index_of_info row.
Proof.
  intros Hasm Hin. apply assembled_extract_table, extract_table_inr in Hasm
    as (cols & pks & fks & rows & refs & _ & _ & _ & Hrows & _ & ->).
  simpl in Hin. rewrite indexes_fill in Hin.
  apply fill_elem_of in Hin as [Hin | (row & Hrow & Hkeep & Hk & Hv)].
  - by apply elem_of_nil in Hin.
  - by exists rows, row.
Qed.

(** C4. No table of the model that [extract_schema] returns has an index
    entry named "PRIMARY": it is not a key of the index mapping and no
    stored [Index] has it as its name, whatever the catalog reports. *)
Theorem primary_sentinel_never_indexed cat s t tbl :
  assembled cat s t tbl ->
  ("PRIMARY" ∉ dict_keys (tbl_indexes tbl)) ∧
  dict_get (tbl_indexes tbl) "PRIMARY" = None ∧
  (forall k idx, (k, idx) ∈ tbl_indexes tbl ->
                 k ≠ "PRIMARY" ∧ idx_name idx ≠ "PRIMARY").
Proof.
  intros Hasm.
  assert (forall k idx, (k, idx) ∈ tbl_indexes tbl ->
                        k ≠ "PRIMARY" ∧ idx_name idx ≠ "PRIMARY") as Hall.
  { intros k idx Hin.
    destruct (assembled_index _ _ _ _ _ _ Hasm Hin)
      as (rows & row & _ & _ & Hne & <- & ->). done. }
  assert ("PRIMARY" ∉ dict_keys (tbl_indexes tbl)) as Hnot.
  { intros Hin. apply list_elem_of_fmap in Hin as ([k idx] & Hk & Hin).
    simpl in Hk. subst k. by destruct (Hall _ _ Hin). }
  split; [done|]. split; [by apply dict_get_None | done].
Qed.

(** C5. The [type] of every index stored in a table's index mapping is
    what [str.lower] returns on the type label of the catalog row it was
    built from, and what it returns on the default label "btree" when
    that row has no type entry. *)
Theorem index_type_lowercased cat s t tbl k idx :
  assembled cat s t tbl ->
  (k, idx) ∈ tbl_indexes tbl ->
  exists rows row,
    get_indexes cat t s = inr rows ∧ row ∈ rows ∧ ii_name row = idx_name idx ∧
    (forall label,
       ii_type row = Some label -> idx_type idx = Some (str_lower label)) ∧
    (ii_type row = None -> idx_type idx = Some (str_lower "btree")).
Proof.
  intros Hasm Hin.
  destruct (assembled_index _ _ _ _ _ _ Hasm Hin)
    as (rows & row & Hrows & Hrow & _ & _ & ->).
  exists rows, row. repeat split; try done; simpl.
  - by intros label ->.
  - by intros ->.
Qed.

(** ** Reverse references and key collisions *)

(** C10. Every [ReferencedBy] that the reverse-reference lookup returns
    holds exactly one column name, that of the single row it was built
    from. *)
Theorem referenced_by_single_column cat s t refs k r :
  result (_get_referenced_by cat s t) = inr refs ->
  (k, r) ∈ refs ->
  length (ref_columns r) = 1 ∧
  exists rows row,
    execute_referenced_by cat s t = inr rows ∧ row ∈ rows ∧
    ref_columns r = [rr_source_column row].
Proof.
  rewrite get_referenced_by_result.
  destruct (execute_referenced_by cat s t) as [|rows]; [done|].
  intros [= <-] Hin. rewrite dict_comprehension_fill in Hin.
  apply fill_elem_of in Hin as [Hin | (row & Hrow & _ & _ & <-)].
  - by apply elem_of_nil in Hin.
  - split; [done|]. by exists rows, row.
Qed.

(** C3. The mapping returned by the foreign-key lookup has no two entries
    with the same column name and the one returned by the reverse-reference
    lookup has no two entries with the same referencing table; under each
    key stands the entry built from the last row that has this key, so a
    later row overwrites an earlier one. *)
Theorem lookups_last_write_wins cat s t :
  (forall fks,
     result (_get_foreign_keys cat s t) = inr fks ->
     NoDup (dict_keys fks) ∧
     forall pre row post,
       execute_foreign_keys cat s t = inr (pre ++ row :: post) ->
       (forall row', row' ∈ post -> fkr_column_name row' ≠ fkr_column_name row) ->
       dict_get fks (fkr_column_name row) = Some (fk_of_row row)) ∧
  (forall refs,
     result (_get_referenced_by cat s t) = inr refs ->
     NoDup (dict_keys refs) ∧
     forall pre row post,
       execute_referenced_by cat s t = inr (pre ++ row :: post) ->
       (forall row', row' ∈ post -> rr_source_table row' ≠ rr_source_table row) ->
       dict_get refs (rr_source_table row) = Some (ref_of_row row)).
Proof.
  split.
  - intros fks. rewrite get_foreign_keys_result.
    destruct (execute_foreign_keys cat s t) as [|rows]; [done|].
    intros [= <-]. rewrite dict_comprehension_fill. split.
    + apply fill_NoDup, NoDup_nil_2.
    + intros pre row post [= ->] Hpost. apply fill_get_last; [done|]. eauto.
  - intros refs. rewrite get_referenced_by_result.
    destruct (execute_referenced_by cat s t) as [|rows]; [done|].
    intros [= <-]. rewrite dict_comprehension_fill. split.
    + apply fill_NoDup, NoDup_nil_2.
    + intros pre row post [= ->] Hpost. apply fill_get_last; [done|]. eauto.
Qed.

(** ** Keys and stored names *)

(** C9. In every table of the model that [extract_schema] returns, each
    column is stored under its own name, each index under its own name and
    each incoming reference under its own referencing table. *)
Theorem table_keys_consistent cat s t tbl :
  assembled cat s t tbl ->
  (forall k c, (k, c) ∈ tbl_columns tbl -> col_name c = k) ∧
  (forall k i, (k, i) ∈ tbl_indexes tbl -> idx_name i = k) ∧
  (forall k r, (k, r) ∈ tbl_referenced_by tbl -> ref_table r = k).
Proof.
  intros Hasm. repeat split.
  - intros k c Hin.
    destruct (assembled_column _ _ _ _ _ _ Hasm Hin)
      as (pks & fks & r & _ & _ & <- & ->).
    apply build_column_name.
  - intros k i Hin.
    destruct (assembled_index _ _ _ _ _ _ Hasm Hin)
      as (rows & row & _ & _ & _ & <- & ->). done.
  - intros k r Hin.
    apply assembled_extract_table, extract_table_inr in Hasm
      as (cols & pks & fks & rows & refs & _ & _ & _ & _ & Href & ->).
    simpl in Hin. rewrite get_referenced_by_result in Href.
    destruct (execute_referenced_by cat s t) as [|rrows]; [done|].
    injection Href as <-. rewrite dict_comprehension_fill in Hin.
    apply fill_elem_of in Hin as [Hin | (row & _ & _ & <- & <-)]; [|done].
    by apply elem_of_nil in Hin.
Qed.

(** ** Failures *)

Section fail_fast_facts.
Context (cat : Catalog).

Lemma fail_fast_ret {A} (a : A) : fail_fast cat (mret a : M A).
Proof. split; [apply Forall_nil_2 | done]. Qed.

Lemma fail_fast_print line : fail_fast cat (print line).
Proof. split; [by apply Forall_singleton | done]. Qed.

Lemma fail_fast_ask {A} q (a : answer A) :
  (is_error a -> raises cat q) -> fail_fast cat (ask q a).
Proof.
  intros Hq. split.
  - rewrite trace_ask. by apply Forall_singleton.
  - intros e. rewrite result_ask, trace_ask.
    destruct a as [msg|rows]; [|done]. intros [= <-].
    split; [done|]. exists [], q. split; [done | by apply Hq].
Qed.

Lemma fail_fast_bind {A B} (m : M A) (f : A -> M B) :
  fail_fast cat m -> (forall a, fail_fast cat (f a)) -> fail_fast cat (m ≫= f).
Proof.
  intros [Hev Hm] Hf. split.
  - rewrite trace_bind. apply Forall_app. split; [done|].
    destruct (result m) as [e|a]; [apply Forall_nil_2 | apply Hf].
  - intros e. rewrite result_bind, trace_bind.
    destruct (result m) as [e'|a] eqn:Hr.
    + intros [= <-]. rewrite app_nil_r. by apply Hm.
    + intros He. destruct (Hf a) as [_ Hfa].
      destruct (Hfa e He) as (Hexc & tr & q & Htr & Hq).
      split; [done|]. exists (trace m ++ tr), q.
      by rewrite Htr, app_assoc.
Qed.

(** A handler that only raises another [Exception] keeps the stop where
    it was. *)
Lemma fail_fast_try_except_raise {A} (m : M A) (wrap : exn -> exn) :
  (forall e, is_Exception (wrap e) = true) ->
  fail_fast cat m -> fail_fast cat (try_except m (fun e => raise (wrap e))).
Proof.
  intros Hwrap [Hev Hm]. split.
  - rewrite trace_try_except. apply Forall_app. split; [done|].
    destruct (result m) as [e|a]; [|apply Forall_nil_2].
    destruct (is_Exception e); apply Forall_nil_2.
  - intros e. rewrite result_try_except, trace_try_except.
    destruct (result m) as [e'|a] eqn:Hr; [|done].
    destruct (Hm e' eq_refl) as (Hexc & tr & q & Htr & Hq).
    rewrite Hexc. simpl. intros [= <-]. rewrite app_nil_r.
    split; [apply Hwrap | by exists tr, q].
Qed.

Lemma fail_fast_for_each {A X} (body : A -> X -> M A) acc xs :
  (forall a x, fail_fast cat (body a x)) -> fail_fast cat (for_each body acc xs).
Proof.
  intros Hbody. revert acc. induction xs as [|x xs IH]; intros acc.
  - apply (fail_fast_ret acc).
  - rewrite for_each_cons. apply fail_fast_bind; [apply Hbody | apply IH].
Qed.

Lemma fail_fast_extract_table s t : fail_fast cat (extract_table cat s t).
Proof.
  unfold extract_table.
  apply fail_fast_bind; [by apply fail_fast_ask | intros cols].
  apply fail_fast_bind; [|intros pks].
  { apply fail_fast_bind; [by apply fail_fast_ask | intros rows].
    apply fail_fast_ret. }
  apply fail_fast_bind; [|intros fks].
  { apply fail_fast_bind; [by apply fail_fast_ask | intros rows].
    apply fail_fast_ret. }
  apply fail_fast_bind; [apply fail_fast_print | intros _].
  apply fail_fast_bind; [apply fail_fast_print | intros _].
  apply fail_fast_bind; [|intros idxs].
  { apply fail_fast_try_except_raise; [done|].
    apply fail_fast_bind; [by apply fail_fast_ask | intros rows].
    apply fail_fast_ret. }
  apply fail_fast_bind; [|intros refs; apply fail_fast_ret].
  apply fail_fast_try_except_raise; [done|].
  apply fail_fast_bind; [by apply fail_fast_ask | intros rows].
  apply fail_fast_ret.
Qed.

Lemma fail_fast_add_schema acc s : fail_fast cat (add_schema cat acc s).
Proof.
  unfold add_schema.
  apply fail_fast_bind; [apply fail_fast_print | intros _].
  apply fail_fast_bind; [by apply fail_fast_ask | intros tables].
  apply fail_fast_bind; [|intros ?; apply fail_fast_ret].
  apply fail_fast_for_each. intros tacc t. unfold add_table.
  apply fail_fast_bind; [apply fail_fast_extract_table | intros ?].
  apply fail_fast_ret.
Qed.

(** The extraction stops at the first call on which the catalog raises:
    that call is the last event of the run. *)
Lemma fail_fast_extract_schema : fail_fast cat (extract_schema cat).
Proof.
  unfold extract_schema.
  apply fail_fast_bind; [by apply fail_fast_ask | intros names].
  apply fail_fast_bind; [|intros ?; apply fail_fast_ret].
  apply fail_fast_for_each. apply fail_fast_add_schema.
Qed.
End fail_fast_facts.

(** A run that returns a model has fetched every table of every schema it
    keeps. *)
Lemma extract_schema_inr_table cat db names s tables t :
  result (extract_schema cat) = inr db ->
  get_schema_names cat = inr names ->
  s ∈ names -> s ∉ system_schemas ->
  get_table_names cat s = inr tables ->
  t ∈ tables ->
  exists tbl, result (extract_table cat s t) = inr tbl.
Proof.
  intros Hdb Hnames Hs Hsys Htables Ht. unfold extract_schema in Hdb.
  apply bind_inr in Hdb as (names' & Hn & Hdb). apply ask_inr in Hn.
  assert (names' = names) as -> by congruence.
  apply bind_inr in Hdb as (schemas & Hloop & _).
  eapply (for_each_inr_each _ _ _ _ s) in Hloop as (a & a' & Hbody);
    [|by apply list_elem_of_filter].
  unfold add_schema in Hbody.
  apply bind_inr in Hbody as ([] & _ & Hbody).
  apply bind_inr in Hbody as (tables' & Htn & Hbody). apply ask_inr in Htn.
  assert (tables' = tables) as -> by congruence.
  apply bind_inr in Hbody as (schema_tables & Htloop & _).
  eapply (for_each_inr_each _ _ _ _ t) in Htloop as (ta & ta' & Htbody);
    [|done].
  unfold add_table in Htbody.
  apply bind_inr in Htbody as (tbl & Htbl & _). by exists tbl.
Qed.

Lemma result_try_finally {A} (m : M A) (fin : M unit) :
  result (try_finally m fin) =
  match result fin with inl e' => inl e' | inr _ => result m end.
Proof. by destruct m as [tr r], fin as [tr' r']. Qed.

Lemma trace_try_finally {A} (m : M A) (fin : M unit) :
  trace (try_finally m fin) = trace m ++ trace fin.
Proof. by destruct m as [tr r], fin as [tr' r']. Qed.

Section main_facts.
Context (model_dump_json : DatabaseModel -> string).
Context (open_error : string -> option string).
Context (extractor_repr : string).

Local Abbreviation run_main :=
  (main model_dump_json open_error extractor_repr).

(** When the extraction raises, [main] reports it, closes the extractor
    and leaves through [sys.exit(1)], having written nothing. *)
Lemma main_extraction_failed cat e :
  result (extract_schema cat) = inl e ->
  result (run_main cat) = inl (SystemExit 1) ∧
  exists line,
    trace (run_main cat) =
    EPrint line :: trace (extract_schema cat) ++
    [EPrint ("Erro durante a extração: " +:+ exn_str e);
     EPrint "Fechando conexão ao banco de dados"; EClose].
Proof.
  intros He.
  destruct (fail_fast_extract_schema cat) as [_ Hff].
  destruct (Hff e He) as [Hexc _].
  unfold main. rewrite !result_bind, !trace_bind.
  rewrite result_try_finally, trace_try_finally.
  rewrite result_try_except, trace_try_except, !result_bind, !trace_bind.
  rewrite He, Hexc. simpl. split; [done|]. eexists.
  rewrite !app_nil_r, <- !app_assoc. reflexivity.
Qed.

(** When the extraction returns and the file can be opened, [main]
    writes the serialized model and ends normally. *)
Lemma main_extraction_succeeded cat db :
  result (extract_schema cat) = inr db ->
  open_error JSON_DESTINATION_FILENAME = None ->
  EWrite JSON_DESTINATION_FILENAME (model_dump_json db) ∈ trace (run_main cat) ∧
  exit_code (run_main cat) = 0%Z.
Proof.
  intros Hdb Hopen. unfold exit_code, main.
  rewrite !result_bind, !trace_bind.
  rewrite result_try_finally, trace_try_finally.
  rewrite result_try_except, trace_try_except, !result_bind, !trace_bind.
  rewrite Hdb. unfold write_file. rewrite Hopen. simpl. split; [|done].
  set_solver.
Qed.
End main_facts.

(** ** Which schemas are processed *)

Lemma not_system_schema s :
  s ∉ system_schemas <-> s ≠ "information_schema" ∧ s ≠ "pg_catalog".
Proof.
  unfold system_schemas. rewrite !not_elem_of_cons.
  split; [by intros (? & ? & _) | intros [? ?]].
  repeat split; try done. apply not_elem_of_nil.
Qed.

Section trace_Forall.
Context (P : event -> Prop).

Lemma trace_Forall_ret {A} (a : A) : Forall P (trace (mret a : M A)).
Proof. apply Forall_nil_2. Qed.

Lemma trace_Forall_print line : P (EPrint line) -> Forall P (trace (print line)).
Proof. intros. by apply Forall_singleton. Qed.

Lemma trace_Forall_ask {A} q (a : answer A) :
  P (EQuery q) -> Forall P (trace (ask q a)).
Proof. intros. rewrite trace_ask. by apply Forall_singleton. Qed.

Lemma trace_Forall_bind {A B} (m : M A) (f : A -> M B) :
  Forall P (trace m) -> (forall a, Forall P (trace (f a))) ->
  Forall P (trace (m ≫= f)).
Proof.
  intros Hm Hf. rewrite trace_bind. apply Forall_app. split; [done|].
  destruct (result m); [apply Forall_nil_2 | apply Hf].
Qed.

Lemma trace_Forall_try_except_raise {A} (m : M A) (wrap : exn -> exn) :
  Forall P (trace m) ->
  Forall P (trace (try_except m (fun e => raise (wrap e)))).
Proof.
  intros Hm. rewrite trace_try_except. apply Forall_app. split; [done|].
  destruct (result m) as [e|]; [|apply Forall_nil_2].
  destruct (is_Exception e); apply Forall_nil_2.
Qed.

Lemma trace_Forall_for_each {A X} (body : A -> X -> M A) acc xs :
  (forall a x, Forall P (trace (body a x))) ->
  Forall P (trace (for_each body acc xs)).
Proof.
  intros Hbody. revert acc. induction xs as [|x xs IH]; intros acc.
  - apply Forall_nil_2.
  - rewrite for_each_cons. by apply trace_Forall_bind.
Qed.
End trace_Forall.

Lemma trace_extract_table_no_listing cat s t :
  Forall not_table_listing (trace (extract_table cat s t)).
Proof.
  unfold extract_table, _get_primary_keys, _get_foreign_keys, fetch_indexes,
    fetch_referenced_by, _get_referenced_by.
  repeat first
    [ apply trace_Forall_bind; [|intros ?]
    | apply trace_Forall_try_except_raise
    | apply trace_Forall_ret
    | by apply trace_Forall_print
    | by apply trace_Forall_ask ].
Qed.

Lemma trace_table_loop_no_listing cat s tables acc :
  Forall not_table_listing (trace (for_each (add_table cat s) acc tables)).
Proof.
  apply trace_Forall_for_each. intros a t. unfold add_table.
  apply trace_Forall_bind; [apply trace_extract_table_no_listing | intros ?].
  apply trace_Forall_ret.
Qed.

(** The tables of a schema are listed only inside that schema's
    iteration, as its second event. *)
Lemma trace_add_schema cat acc s :
  exists line rest,
    trace (add_schema cat acc s) =
      EPrint line :: EQuery (QTableNames s) :: rest ∧
    Forall not_table_listing rest.
Proof.
  unfold add_schema. rewrite !trace_bind, trace_ask, result_ask. simpl.
  eexists _, _. split; [reflexivity|].
  destruct (get_table_names cat s) as [|tables]; [apply Forall_nil_2|].
  rewrite trace_bind. apply Forall_app. split.
  - apply trace_table_loop_no_listing.
  - destruct (result _); apply Forall_nil_2.
Qed.

Lemma trace_schema_loop_listing cat xs acc s :
  EQuery (QTableNames s) ∈ trace (for_each (add_schema cat) acc xs) -> s ∈ xs.
Proof.
  revert acc. induction xs as [|x xs IH]; intros acc.
  - intros Hin. by apply elem_of_nil in Hin.
  - rewrite for_each_cons, trace_bind, elem_of_app.
    destruct (trace_add_schema cat acc x) as (line & rest & -> & Hrest).
    intros [Hin | Hin].
    + apply elem_of_cons in Hin as [? | Hin]; [done|].
      apply elem_of_cons in Hin as [[= ->] | Hin]; [apply list_elem_of_here|].
      rewrite Forall_forall in Hrest. by destruct (Hrest _ Hin s).
    + apply list_elem_of_further. destruct (result _); [|by eapply IH].
      by apply elem_of_nil in Hin.
Qed.

Lemma schema_loop_inr_listing cat xs acc r s :
  result (for_each (add_schema cat) acc xs) = inr r ->
  s ∈ xs ->
  EQuery (QTableNames s) ∈ trace (for_each (add_schema cat) acc xs).
Proof.
  revert acc. induction xs as [|x xs IH]; intros acc Hr Hin.
  - by apply elem_of_nil in Hin.
  - rewrite for_each_cons in *. apply bind_inr in Hr as (a & Ha & Hr).
    rewrite trace_bind, elem_of_app, Ha.
    apply elem_of_cons in Hin as [-> | Hin]; [left | right; by eapply IH].
    destruct (trace_add_schema cat acc x) as (line & rest & -> & _).
    apply list_elem_of_further, list_elem_of_here.
Qed.

Lemma schema_loop_keys cat xs acc r :
  result (for_each (add_schema cat) acc xs) = inr r ->
  forall k, k ∈ dict_keys r <-> k ∈ dict_keys acc ∨ k ∈ xs.
Proof.
  revert acc. induction xs as [|x xs IH]; intros acc Hr k.
  - injection Hr as <-.
    split; [by left | intros [? | Hin]; [done | by apply elem_of_nil in Hin]].
  - rewrite for_each_cons in Hr. apply bind_inr in Hr as (a & Ha & Hr).
    rewrite (IH _ Hr). unfold add_schema in Ha.
    apply bind_inr in Ha as ([] & _ & Ha).
    apply bind_inr in Ha as (tables & _ & Ha).
    apply bind_inr in Ha as (schema_tables & _ & Ha).
    rewrite result_ret in Ha. injection Ha as <-.
    rewrite dict_keys_set, elem_of_cons. tauto.
Qed.

(** C8. When [extract_schema] returns, the keys of the model's schema
    mapping are exactly the names that [get_schema_names] returned other
    than "information_schema" and "pg_catalog", and exactly those schemas
    had their tables listed during the run. *)
Theorem schemas_exactly_non_system cat db :
  result (extract_schema cat) = inr db ->
  exists names,
    get_schema_names cat = inr names ∧
    (forall s, s ∈ dict_keys (db_schemas db) <->
               s ∈ names ∧ s ≠ "information_schema" ∧ s ≠ "pg_catalog") ∧
    (forall s, EQuery (QTableNames s) ∈ trace (extract_schema cat) <->
               s ∈ names ∧ s ≠ "information_schema" ∧ s ≠ "pg_catalog").
Proof.
  intros Hdb. unfold extract_schema in *.
  apply bind_inr in Hdb as (names & Hn & Hdb). apply ask_inr in Hn.
  apply bind_inr in Hdb as (schemas & Hloop & Hdb).
  rewrite result_ret in Hdb. injection Hdb as <-.
  exists names. split; [done|]. split; intros s.
  - simpl. rewrite (schema_loop_keys _ _ _ _ Hloop), list_elem_of_filter,
      not_system_schema.
    split; [intros [Hin | [? ?]]; [by apply elem_of_nil in Hin | done]
           | intros [? ?]; by right].
  - rewrite <- not_system_schema, !trace_bind, trace_ask, result_ask, Hn.
    simpl. rewrite trace_bind, Hloop, app_nil_r, elem_of_cons. split.
    + intros [? | Hin]; [done|].
      apply trace_schema_loop_listing, list_elem_of_filter in Hin. tauto.
    + intros [? ?]. right. eapply schema_loop_inr_listing; [done|].
      by apply list_elem_of_filter.
Qed.

(** ** A failed lookup aborts the run *)

Section run_aborts.
Context (model_dump_json : DatabaseModel -> string).
Context (open_error : string -> option string).
Context (extractor_repr : string).

Local Abbreviation run_main :=
  (main model_dump_json open_error extractor_repr).

(** C7. If the index lookup or the reverse-reference lookup raises for
    one table of a schema that is processed, [extract_schema] returns no
    model: it raises, and the last event of the run is a catalog call
    that raised, so nothing is processed after it; [main] then writes no
    file and the process exits with status 1. *)
Theorem lookup_failure_aborts_run cat names s tables t :
  get_schema_names cat = inr names ->
  s ∈ names -> s ∉ system_schemas ->
  get_table_names cat s = inr tables ->
  t ∈ tables ->
  is_error (get_indexes cat t s) ∨ is_error (execute_referenced_by cat s t) ->
  (exists e, result (extract_schema cat) = inl e) ∧
  (exists tr q, trace (extract_schema cat) = tr ++ [EQuery q] ∧ raises cat q) ∧
  (forall path content, EWrite path content ∉ trace (run_main cat)) ∧
  result (run_main cat) = inl (SystemExit 1) ∧
  exit_code (run_main cat) = 1%Z.
Proof.
  intros Hnames Hs Hsys Htables Ht Hfail.
  assert (exists e, result (extract_schema cat) = inl e) as [e He].
  { destruct (result (extract_schema cat)) as [e|db] eqn:Hr; [by eauto|].
    destruct (extract_schema_inr_table _ _ _ _ _ _ Hr Hnames Hs Hsys Htables Ht)
      as [tbl Htbl].
    apply extract_table_inr in Htbl
      as (cols & pks & fks & rows & refs & _ & _ & _ & Hidx & Href & _).
    rewrite get_referenced_by_result in Href. rewrite Hidx in Hfail.
    destruct (execute_referenced_by cat s t); [done|].
    by destruct Hfail. }
  destruct (fail_fast_extract_schema cat) as [Hreads Hff].
  destruct (Hff e He) as [_ Hstop].
  destruct (main_extraction_failed model_dump_json open_error extractor_repr
              cat e He) as (Hres & line & Htr).
  split; [by eauto|]. split; [done|]. split; [|split; [done|]].
  - intros path content. rewrite Htr, elem_of_cons, elem_of_app.
    intros [? | [Hin | Hin]]; [done | |].
    + rewrite Forall_forall in Hreads. apply (Hreads _ Hin).
    + repeat (apply elem_of_cons in Hin as [? | Hin]; [done|]).
      by apply elem_of_nil in Hin.
  - unfold exit_code. by rewrite Hres.
Qed.
End run_aborts.

(** ** What a failed lookup raises *)

Lemma append_assoc (s1 s2 s3 : string) : (s1 +:+ s2) +:+ s3 = s1 +:+ s2 +:+ s3.
Proof.
  induction s1 as [|c s1 IH]; [done|]. by rewrite !append_cons, IH.
Qed.

Lemma append_nil_r (s : string) : s +:+ EmptyString = s.
Proof. induction s as [|c s IH]; [done|]. by rewrite append_cons, IH. Qed.

Lemma contains_head (n post : string) : contains n (n +:+ post) = true.
Proof. apply contains_spec. by exists EmptyString, post. Qed.

Lemma contains_self (n : string) : contains n n = true.
Proof.
  apply contains_spec. exists EmptyString, EmptyString.
  by rewrite append_nil_r.
Qed.

Lemma contains_app_r (n pre h : string) :
  contains n h = true -> contains n (pre +:+ h) = true.
Proof.
  rewrite !contains_spec. intros (p & q & ->).
  exists (pre +:+ p), q. by rewrite append_assoc.
Qed.

(** The message of the reverse-reference handler carries the schema, the
    table and the text of the cause. *)
Lemma referenced_by_error_msg_carries s t e :
  contains s (referenced_by_error_msg s t e) = true ∧
  contains t (referenced_by_error_msg s t e) = true ∧
  contains (exn_str e) (referenced_by_error_msg s t e) = true.
Proof.
  unfold referenced_by_error_msg. repeat split.
  - do 2 apply contains_app_r. apply contains_head.
  - do 4 apply contains_app_r. apply contains_head.
  - do 6 apply contains_app_r. apply contains_self.
Qed.

(** The message of the index handler is the same for every schema and
    table: it carries the text of the cause after a fixed prefix. *)
Lemma index_error_msg_eq e :
  index_error_msg e =
  "Erro ao tentar obter os indices no catálogo para '{schema_name}.{table_name}'. Exception: "
  +:+ exn_str e.
Proof. reflexivity. Qed.

Lemma index_lookup_failure_wrapped cat s t msg :
  get_indexes cat t s = inl msg ->
  result (fetch_indexes cat s t) =
  inl (SchemaValueError (index_error_msg (Exception msg))).
Proof. intros H. by rewrite fetch_indexes_result, H. Qed.

Lemma reverse_lookup_failure_wrapped cat s t msg :
  execute_referenced_by cat s t = inl msg ->
  result (fetch_referenced_by cat s t) =
  inl (SchemaValueError (referenced_by_error_msg s t (Exception msg))).
Proof. intros H. by rewrite fetch_referenced_by_result, H. Qed.

(** A failure of the primary-key or of the foreign-key lookup leaves
    [extract_table] as the exception the query raised. *)
Lemma key_lookup_failure_not_wrapped cat s t cols msg :
  get_columns cat t s = inr cols ->
  execute_primary_keys cat (s +:+ "." +:+ t) = inl msg ∨
  ((exists pks, execute_primary_keys cat (s +:+ "." +:+ t) = inr pks) ∧
   execute_foreign_keys cat s t = inl msg) ->
  result (extract_table cat s t) = inl (Exception msg).
Proof.
  intros Hcols Hfail. unfold extract_table.
  rewrite result_bind, result_ask, Hcols.
  rewrite result_bind, get_primary_keys_result.
  destruct Hfail as [-> | [[pks ->] Hfk]]; [done|].
  by rewrite result_bind, get_foreign_keys_result, Hfk.
Qed.

(** C6, at a catalog whose index lookup raises "permission denied" on
    table [orders] of schema [public]: the run raises the extractor's own
    error, whose message holds the text of the cause but neither the
    schema name nor the table name; the braces of the handler's literal
    are in it as written. *)
Theorem index_failure_message_lacks_names :
  result (extract_schema Sample.broken_indexes) =
    inl (SchemaValueError
           "Erro ao tentar obter os indices no catálogo para '{schema_name}.{table_name}'. Exception: permission denied") ∧
  contains "public" (index_error_msg (Exception "permission denied")) = false ∧
  contains "orders" (index_error_msg (Exception "permission denied")) = false ∧
  contains "permission denied"
    (index_error_msg (Exception "permission denied")) = true.
Proof. by vm_compute. Qed.

(** * Further properties *)

(** ** Insertion order *)

Lemma dict_set_fresh {V} (d : dict V) k v :
  k ∉ dict_keys d -> dict_set d k v = d ++ [(k, v)].
Proof.
  unfold dict_keys. induction d as [|[k' v'] d IH]; simpl; [done|].
  rewrite not_elem_of_cons. intros [Hne Hnot].
  rewrite decide_False by done. by rewrite IH.
Qed.

Lemma filter_all {A} (P : A -> Prop) `{!forall x, Decision (P x)} (l : list A) :
  (forall x, x ∈ l -> P x) -> filter P l = l.
Proof.
  induction l as [|x l IH]; intros Hall; [done|].
  rewrite filter_cons_True by (apply Hall, list_elem_of_here).
  rewrite IH; [done|]. intros y Hy. by apply Hall, list_elem_of_further.
Qed.

Section fill_order.
Context {R V : Type} (keep : R -> Prop) `{!forall r, Decision (keep r)}.
Context (key : R -> string) (val : R -> V).

(** Rows with fresh, pairwise distinct keys are appended in their order. *)
Lemma fill_fresh (d : dict V) (rows : list R) :
  NoDup (dict_keys d ++ (key <$> filter keep rows)) ->
  fill keep key val d rows =
  d ++ ((fun r => (key r, val r)) <$> filter keep rows).
Proof.
  revert d. induction rows as [|r rows IH]; intros d Hnd.
  - by rewrite app_nil_r.
  - rewrite fill_cons. unfold fill_step.
    destruct (decide (keep r)) as [Hk|Hk].
    + rewrite filter_cons_True in * by done. rewrite fmap_cons in *.
      apply NoDup_app in Hnd as Hnd'. destruct Hnd' as (_ & Hdisj & _).
      rewrite dict_set_fresh.
      * rewrite IH; [by rewrite <- app_assoc|].
        unfold dict_keys in *. by rewrite fmap_app, <- app_assoc.
      * intros Hin. apply (Hdisj _ Hin), list_elem_of_here.
    + rewrite filter_cons_False in * by done. by apply IH.
Qed.

Lemma fill_fresh_keys (rows : list R) :
  NoDup (key <$> rows) ->
  dict_keys (fill keep key val dict_empty rows) = key <$> filter keep rows.
Proof.
  intros Hnd. rewrite fill_fresh.
  - unfold dict_keys. simpl. rewrite <- list_fmap_compose.
    by apply list_fmap_ext.
  - simpl. eapply sublist_NoDup; [exact Hnd|].
    apply fmap_sublist, sublist_filter.
Qed.
End fill_order.

(** ** What a table holds *)

Lemma build_column_fields pks fks r :
  col_type (build_column pks fks r) = ci_type r ∧
  col_nullable (build_column pks fks r) = ci_nullable r ∧
  col_default (build_column pks fks r) = ci_default r.
Proof. unfold build_column, dict_mem. by destruct (dict_get fks (ci_name r)). Qed.

(** X1. Every column that [get_columns] reports for a table of the
    returned model is stored under its name, with the name, the type text,
    the nullability and the default of the last row reported under that
    name. *)
Theorem column_copied_from_catalog cat s t tbl pre row post :
  assembled cat s t tbl ->
  get_columns cat t s = inr (pre ++ row :: post) ->
  (forall row', row' ∈ post -> ci_name row' ≠ ci_name row) ->
  exists col,
    dict_get (tbl_columns tbl) (ci_name row) = Some col ∧
    col_name col = ci_name row ∧ col_type col = ci_type row ∧
    col_nullable col = ci_nullable row ∧ col_default col = ci_default row.
Proof.
  intros Hasm Hcols Hpost.
  apply assembled_extract_table, extract_table_inr in Hasm
    as (cols & pks & fks & rows & refs & Hc & _ & _ & _ & _ & ->).
  rewrite Hcols in Hc. injection Hc as <-. simpl. rewrite columns_fill.
  exists (build_column pks fks row). split.
  - apply (fill_get_last _ ci_name); [done | by eauto].
  - split; [apply build_column_name | apply build_column_fields].
Qed.

(** X2. When the column names that [get_columns] reports for a table are
    pairwise distinct, the keys of the table's column mapping are these
    names in the order reported. *)
Theorem columns_in_catalog_order cat s t tbl cols :
  assembled cat s t tbl ->
  get_columns cat t s = inr cols ->
  NoDup (ci_name <$> cols) ->
  dict_keys (tbl_columns tbl) = ci_name <$> cols.
Proof.
  intros Hasm Hcols Hnd.
  apply assembled_extract_table, extract_table_inr in Hasm
    as (cols' & pks & fks & rows & refs & Hc & _ & _ & _ & _ & ->).
  rewrite Hcols in Hc. injection Hc as <-. simpl.
  rewrite columns_fill, fill_fresh_keys by done.
  by rewrite filter_all.
Qed.

(** X3. Every index that [get_indexes] reports under a name other than
    "PRIMARY" is stored under that name, with the column list and the
    uniqueness flag of the last row reported under that name. *)
Theorem index_copied_from_catalog cat s t tbl pre row post :
  assembled cat s t tbl ->
  get_indexes cat t s = inr (pre ++ row :: post) ->
  ii_name row ≠ "PRIMARY" ->
  (forall row', row' ∈ post -> ii_name row' ≠ ii_name row) ->
  exists idx,
    dict_get (tbl_indexes tbl) (ii_name row) = Some idx ∧
    idx_name idx = ii_name row ∧
    idx_columns idx = ii_column_names row ∧
    idx_unique idx = ii_unique row.
Proof.
  intros Hasm Hrows Hne Hpost.
  apply assembled_extract_table, extract_table_inr in Hasm
    as (cols & pks & fks & rows & refs & _ & _ & _ & Hr & _ & ->).
  rewrite Hrows in Hr. injection Hr as <-. simpl. rewrite indexes_fill.
  exists (index_of_info row). split; [|done].
  apply (fill_get_last _ ii_name); [done | by eauto].
Qed.

(** X4. When the index names that [get_indexes] reports for a table are
    pairwise distinct, the keys of the table's index mapping are these
    names without "PRIMARY", in the order reported. *)
Theorem indexes_in_catalog_order cat s t tbl rows :
  assembled cat s t tbl ->
  get_indexes cat t s = inr rows ->
  NoDup (ii_name <$> rows) ->
  dict_keys (tbl_indexes tbl) =
  ii_name <$> filter (fun idx => ii_name idx ≠ "PRIMARY") rows.
Proof.
  intros Hasm Hrows Hnd.
  apply assembled_extract_table, extract_table_inr in Hasm
    as (cols & pks & fks & rows' & refs & _ & _ & _ & Hr & _ & ->).
  rewrite Hrows in Hr. injection Hr as <-. simpl.
  by rewrite indexes_fill, fill_fresh_keys.
Qed.

(** X5. In a table of the returned model, the [foreign_key] of a column
    is built from the last row of the foreign-key query that names this
    column, and it is absent when no row names it. *)
Theorem column_foreign_key_from_rows cat s t tbl c col rows :
  assembled cat s t tbl ->
  dict_get (tbl_columns tbl) c = Some col ->
  execute_foreign_keys cat s t = inr rows ->
  (forall pre row post,
     rows = pre ++ row :: post -> fkr_column_name row = c ->
     (forall row', row' ∈ post -> fkr_column_name row' ≠ c) ->
     col_foreign_key col =
       Some (mkForeignKey (fkr_target_table row) (fkr_target_column row)
                          (fkr_constraint_name row))) ∧
  ((forall row, row ∈ rows -> fkr_column_name row ≠ c) ->
   col_foreign_key col = None).
Proof.
  intros Hasm Hget Hrows. apply dict_get_elem_of in Hget.
  destruct (assembled_column _ _ _ _ _ _ Hasm Hget)
    as (pks & fks & r & _ & Hfk & <- & ->).
  rewrite get_foreign_keys_result, Hrows in Hfk. injection Hfk as <-.
  rewrite build_column_foreign_key, dict_comprehension_fill. split.
  - intros pre row post -> <- Hpost.
    apply (fill_get_last _ fkr_column_name fk_of_row); [done | by eauto].
  - intros Hnone. rewrite fill_get_other; [done | by eauto].
Qed.

(** X6. Every referencing table that the reverse-reference query reports
    for a table of the returned model has an entry in that table's
    [referenced_by] mapping, built from the last row reported for it and
    holding the one column of that row. *)
Theorem referenced_by_from_rows cat s t tbl pre row post :
  assembled cat s t tbl ->
  execute_referenced_by cat s t = inr (pre ++ row :: post) ->
  (forall row', row' ∈ post -> rr_source_table row' ≠ rr_source_table row) ->
  dict_get (tbl_referenced_by tbl) (rr_source_table row) =
    Some (mkReferencedBy (rr_source_table row) [rr_source_column row]
                         (rr_constraint_name row)).
Proof.
  intros Hasm Hrows Hpost.
  apply assembled_extract_table, extract_table_inr in Hasm
    as (cols & pks & fks & irows & refs & _ & _ & _ & _ & Href & ->).
  rewrite get_referenced_by_result, Hrows in Href. injection Href as <-.
  simpl. rewrite dict_comprehension_fill.
  apply (fill_get_last _ rr_source_table ref_of_row); [done | by eauto].
Qed.

(** ** The loops over tables and schemas *)

Section for_each_dict.
Context {V X : Type} (body : dict V -> X -> M (dict V)).
Context (key : X -> string) (Q : X -> V -> Prop).
Context (Hbody : forall a x a',
  result (body a x) = inr a' -> exists v, a' = dict_set a (key x) v ∧ Q x v).

(** A loop whose iterations each assign one entry returns a dictionary
    without duplicate keys, whose entries were each assigned by the
    iteration of an element with that key. *)
Lemma for_each_dict_entries xs r :
  result (for_each body dict_empty xs) = inr r ->
  NoDup (dict_keys r) ∧
  forall k v, (k, v) ∈ r -> exists x, x ∈ xs ∧ key x = k ∧ Q x v.
Proof.
  apply (for_each_inv body
    (fun a => NoDup (dict_keys a) ∧
              forall k v, (k, v) ∈ a -> exists x, x ∈ xs ∧ key x = k ∧ Q x v)).
  - split; [apply NoDup_nil_2|]. intros k v Hin. by apply elem_of_nil in Hin.
  - intros a x a' Hx [Hnd Hall] Hr.
    destruct (Hbody _ _ _ Hr) as (v & -> & Hq).
    split; [by apply dict_set_NoDup|]. intros k v' Hin.
    apply elem_of_dict_set in Hin as [[-> ->] | Hin]; [by exists x | by eauto].
Qed.

Lemma for_each_dict_keys xs acc r :
  result (for_each body acc xs) = inr r ->
  (forall k, k ∈ dict_keys r <-> k ∈ dict_keys acc ∨ k ∈ (key <$> xs)) ∧
  (NoDup (dict_keys acc ++ (key <$> xs)) ->
   dict_keys r = dict_keys acc ++ (key <$> xs)).
Proof.
  revert acc. induction xs as [|x xs IH]; intros acc Hr.
  - injection Hr as <-. split; [|by rewrite app_nil_r].
    intros k. split; [by left | intros [? | Hin]; [done|]].
    by apply elem_of_nil in Hin.
  - rewrite for_each_cons in Hr. apply bind_inr in Hr as (a & Ha & Hr).
    destruct (Hbody _ _ _ Ha) as (v & -> & _).
    destruct (IH _ Hr) as [Hkeys Hord]. split.
    + intros k. rewrite Hkeys, dict_keys_set, fmap_cons, elem_of_cons. tauto.
    + rewrite fmap_cons. intros Hnd.
      apply NoDup_app in Hnd as Hnd'. destruct Hnd' as (_ & Hdisj & _).
      assert (key x ∉ dict_keys acc) as Hfresh.
      { intros Hin. apply (Hdisj _ Hin), list_elem_of_here. }
      rewrite dict_set_fresh in Hord by done.
      unfold dict_keys in *. rewrite fmap_app, <- app_assoc in Hord.
      by apply Hord.
Qed.
End for_each_dict.

Lemma add_table_inr cat s a t a' :
  result (add_table cat s a t) = inr a' ->
  exists tbl, a' = dict_set a t tbl ∧ result (extract_table cat s t) = inr tbl.
Proof.
  unfold add_table. intros H. apply bind_inr in H as (tbl & Htbl & H).
  rewrite result_ret in H. injection H as <-. by exists tbl.
Qed.

Lemma add_schema_inr cat a s a' :
  result (add_schema cat a s) = inr a' ->
  exists sch,
    a' = dict_set a s sch ∧
    exists tables,
      get_table_names cat s = inr tables ∧
      result (for_each (add_table cat s) dict_empty tables) =
        inr (sch_tables sch).
Proof.
  unfold add_schema. intros H.
  apply bind_inr in H as ([] & _ & H).
  apply bind_inr in H as (tables & Ht & H). apply ask_inr in Ht.
  apply bind_inr in H as (schema_tables & Hloop & H).
  rewrite result_ret in H. injection H as <-.
  exists (mkSchema schema_tables). split; [done|]. by exists tables.
Qed.

Lemma extract_schema_inr cat db :
  result (extract_schema cat) = inr db ->
  exists names,
    get_schema_names cat = inr names ∧
    result (for_each (add_schema cat) dict_empty
              (filter (fun s => s ∉ system_schemas) names)) =
      inr (db_schemas db).
Proof.
  unfold extract_schema. intros H.
  apply bind_inr in H as (names & Hn & H). apply ask_inr in Hn.
  apply bind_inr in H as (schemas & Hloop & H).
  rewrite result_ret in H. injection H as <-. by exists names.
Qed.

(** No mapping of the returned model has two entries under one key:
    not the schemas, not the tables of a schema, and not the columns, the
    indexes or the incoming references of a table. *)
Lemma model_keys_distinct cat db :
  result (extract_schema cat) = inr db ->
  NoDup (dict_keys (db_schemas db)) ∧
  forall s sch, (s, sch) ∈ db_schemas db ->
    NoDup (dict_keys (sch_tables sch)) ∧
    forall t tbl, (t, tbl) ∈ sch_tables sch ->
      NoDup (dict_keys (tbl_columns tbl)) ∧
      NoDup (dict_keys (tbl_indexes tbl)) ∧
      NoDup (dict_keys (tbl_referenced_by tbl)).
Proof.
  intros Hdb. apply extract_schema_inr in Hdb as (names & _ & Hloop).
  eapply (for_each_dict_entries _ id) in Hloop as [Hnd Hall];
    [|by apply add_schema_inr].
  split; [done|]. intros s sch Hin.
  destruct (Hall _ _ Hin) as (s' & _ & Heq & tables & _ & Htables).
  simpl in Heq. subst s'.
  eapply (for_each_dict_entries _ id) in Htables as [Hndt Hallt];
    [|by apply add_table_inr].
  split; [done|]. intros t tbl Hint.
  destruct (Hallt _ _ Hint) as (t' & _ & Heq & Htbl). simpl in Heq. subst t'.
  apply extract_table_inr in Htbl
    as (cols & pks & fks & rows & refs & _ & _ & _ & _ & Href & ->).
  simpl. rewrite columns_fill, indexes_fill.
  rewrite get_referenced_by_result in Href.
  destruct (execute_referenced_by cat s t) as [|rrows]; [done|].
  injection Href as <-. rewrite dict_comprehension_fill.
  repeat split; apply fill_NoDup, NoDup_nil_2.
Qed.

(** X7. The keys of a schema of the returned model are exactly the table
    names that [get_table_names] reports for it, and when these names are
    pairwise distinct the keys stand in the order reported. *)
Theorem tables_as_listed cat db s sch :
  result (extract_schema cat) = inr db ->
  dict_get (db_schemas db) s = Some sch ->
  exists tables,
    get_table_names cat s = inr tables ∧
    (forall t, t ∈ dict_keys (sch_tables sch) <-> t ∈ tables) ∧
    (NoDup tables -> dict_keys (sch_tables sch) = tables).
Proof.
  intros Hdb Hs. apply extract_schema_inr in Hdb as (names & _ & Hloop).
  eapply (for_each_dict_entries _ id) in Hloop as [_ Hall];
    [|by apply add_schema_inr].
  apply dict_get_elem_of in Hs.
  destruct (Hall _ _ Hs) as (s' & _ & Heq & tables & Htn & Htables).
  simpl in Heq. subst s'. exists tables. split; [done|].
  eapply (for_each_dict_keys _ id) in Htables as [Hkeys Hord];
    [|by apply add_table_inr].
  rewrite list_fmap_id in *. split.
  - intros t. rewrite Hkeys. split; [intros [Hin | ?]; [|done] | by right].
    by apply elem_of_nil in Hin.
  - apply Hord.
Qed.

(** X8. When the schema names that [get_schema_names] reports are
    pairwise distinct, the keys of the returned model are the reported
    names other than the two system schemas, in the order reported. *)
Theorem schemas_in_catalog_order cat db names :
  result (extract_schema cat) = inr db ->
  get_schema_names cat = inr names ->
  NoDup names ->
  dict_keys (db_schemas db) = filter (fun s => s ∉ system_schemas) names.
Proof.
  intros Hdb Hnames Hnd.
  apply extract_schema_inr in Hdb as (names' & Hn & Hloop).
  rewrite Hnames in Hn. injection Hn as <-.
  eapply (for_each_dict_keys _ id) in Hloop as [_ Hord];
    [|by apply add_schema_inr].
  rewrite list_fmap_id in Hord. apply Hord. simpl.
  eapply sublist_NoDup; [exact Hnd | apply sublist_filter].
Qed.

(** ** When the extraction returns *)

(** A table that [extract_table] returns had its five calls answered. *)
Lemma extract_table_inr_calls cat s t tbl q :
  result (extract_table cat s t) = inr tbl ->
  q ∈ table_calls s t ->
  raised_text cat q = None.
Proof.
  intros Htbl Hq. apply extract_table_inr in Htbl
    as (cols & pks & fks & rows & refs & Hc & Hpk & Hfk & Hi & Hr & _).
  rewrite get_primary_keys_result in Hpk.
  rewrite get_foreign_keys_result in Hfk.
  rewrite get_referenced_by_result in Hr.
  unfold table_calls in Hq.
  repeat (apply elem_of_cons in Hq as [-> | Hq]); simpl.
  - by rewrite Hc.
  - by destruct (execute_primary_keys _ _).
  - by destruct (execute_foreign_keys _ _ _).
  - by rewrite Hi.
  - by destruct (execute_referenced_by _ _ _).
  - by apply elem_of_nil in Hq.
Qed.

(** X9. When [extract_schema] returns a model, no catalog call in its
    scope raised: not the listing of the schemas, not the listing of the
    tables of a schema it keeps, and none of the five calls of a table so
    listed. A call in scope that raises leaves no model. *)
Theorem returned_model_no_call_raised cat db q :
  result (extract_schema cat) = inr db ->
  call_in_scope cat q ->
  raised_text cat q = None.
Proof.
  intros Hdb Hq.
  destruct (extract_schema_inr _ _ Hdb) as (names & Hn & Hloop).
  assert (forall s, kept_schema cat s ->
            exists tables, get_table_names cat s = inr tables) as Hkept.
  { intros s (names' & Hn' & Hs & Hsys).
    rewrite Hn in Hn'. injection Hn' as <-.
    eapply (for_each_inr_each _ _ _ _ s) in Hloop as (a & a' & Ha);
      [|by apply list_elem_of_filter].
    apply add_schema_inr in Ha as (sch & _ & tables & Ht & _). by eauto. }
  assert (forall s t q', listed_table cat s t -> q' ∈ table_calls s t ->
            raised_text cat q' = None) as Hlisted.
  { intros s t q' [(names' & Hn' & Hs & Hsys) (tables & Ht & Hin)] Hq'.
    destruct (extract_schema_inr_table _ _ _ _ _ _ Hdb Hn' Hs Hsys Ht Hin)
      as [tbl Htbl].
    by apply (extract_table_inr_calls _ _ _ _ _ Htbl). }
  destruct q as [|s|t s|t s|f|s t|s t]; simpl in Hq.
  - simpl. by rewrite Hn.
  - destruct (Hkept _ Hq) as [tables Ht]. simpl. by rewrite Ht.
  - apply (Hlisted s t); [done | unfold table_calls; repeat constructor].
  - apply (Hlisted s t); [done | unfold table_calls; repeat constructor].
  - destruct Hq as (s & t & Hl & ->).
    apply (Hlisted s t); [done | unfold table_calls; repeat constructor].
  - apply (Hlisted s t); [done | unfold table_calls; repeat constructor].
  - apply (Hlisted s t); [done | unfold table_calls; repeat constructor].
Qed.

(** ** Which exception a failed run raises *)

Section stops_with_facts.
Context (cat : Catalog).

Lemma stops_with_ret {A} (a : A) : stops_with cat (mret a : M A).
Proof. done. Qed.

Lemma stops_with_print line : stops_with cat (print line).
Proof. done. Qed.

Lemma stops_with_ask {A} q (a : answer A) :
  raised_text cat q = error_text a ->
  (forall msg, surfaced q msg = Exception msg) ->
  stops_with cat (ask q a).
Proof.
  intros Hq Hs e. rewrite result_ask, trace_ask.
  destruct a as [msg|rows]; [|done]. intros [= <-].
  exists [], q, msg. by rewrite Hs.
Qed.

Lemma stops_with_bind {A B} (m : M A) (f : A -> M B) :
  stops_with cat m -> (forall a, stops_with cat (f a)) ->
  stops_with cat (m ≫= f).
Proof.
  intros Hm Hf e. rewrite result_bind, trace_bind.
  destruct (result m) as [e'|a] eqn:Hr.
  - intros [= <-]. rewrite app_nil_r. by apply Hm.
  - intros He. destruct (Hf a e He) as (tr & q & msg & Htr & Hq & ->).
    exists (trace m ++ tr), q, msg. by rewrite Htr, app_assoc.
Qed.

Lemma stops_with_for_each {A X} (body : A -> X -> M A) acc xs :
  (forall a x, stops_with cat (body a x)) ->
  stops_with cat (for_each body acc xs).
Proof.
  intros Hbody. revert acc. induction xs as [|x xs IH]; intros acc.
  - apply (stops_with_ret acc).
  - rewrite for_each_cons. apply stops_with_bind; [apply Hbody | apply IH].
Qed.

Lemma trace_fetch_indexes s t :
  trace (fetch_indexes cat s t) = [EQuery (QIndexes t s)].
Proof.
  unfold fetch_indexes.
  rewrite trace_try_except, trace_bind, result_bind, trace_ask, result_ask.
  by destruct (get_indexes cat t s).
Qed.

Lemma trace_fetch_referenced_by s t :
  trace (fetch_referenced_by cat s t) = [EQuery (QReferencedBy s t)].
Proof.
  unfold fetch_referenced_by, _get_referenced_by.
  rewrite trace_try_except, trace_bind, result_bind, trace_ask, result_ask.
  by destruct (execute_referenced_by cat s t).
Qed.

Lemma stops_with_fetch_indexes s t : stops_with cat (fetch_indexes cat s t).
Proof.
  intros e. rewrite fetch_indexes_result, trace_fetch_indexes.
  destruct (get_indexes cat t s) as [msg|rows] eqn:Hi; [|done].
  intros [= <-]. exists [], (QIndexes t s), msg. simpl. by rewrite Hi.
Qed.

Lemma stops_with_fetch_referenced_by s t :
  stops_with cat (fetch_referenced_by cat s t).
Proof.
  intros e. rewrite fetch_referenced_by_result, trace_fetch_referenced_by.
  destruct (execute_referenced_by cat s t) as [msg|rows] eqn:Hr; [|done].
  intros [= <-]. exists [], (QReferencedBy s t), msg. simpl. by rewrite Hr.
Qed.

Lemma stops_with_extract_table s t : stops_with cat (extract_table cat s t).
Proof.
  unfold extract_table, _get_primary_keys, _get_foreign_keys.
  repeat first
    [ apply stops_with_bind; [|intros ?]
    | apply stops_with_fetch_indexes
    | apply stops_with_fetch_referenced_by
    | apply stops_with_ret
    | apply stops_with_print
    | by apply stops_with_ask ].
Qed.

Lemma stops_with_extract_schema : stops_with cat (extract_schema cat).
Proof.
  unfold extract_schema.
  apply stops_with_bind; [by apply stops_with_ask | intros names].
  apply stops_with_bind; [|intros ?; apply stops_with_ret].
  apply stops_with_for_each. intros a s. unfold add_schema.
  apply stops_with_bind; [apply stops_with_print | intros _].
  apply stops_with_bind; [by apply stops_with_ask | intros tables].
  apply stops_with_bind; [|intros ?; apply stops_with_ret].
  apply stops_with_for_each. intros ta t. unfold add_table.
  apply stops_with_bind; [apply stops_with_extract_table | intros ?].
  apply stops_with_ret.
Qed.
End stops_with_facts.

Section answered_facts.
Context (cat : Catalog).

Lemma answered_ret {A} (a : A) : answered cat (mret a : M A).
Proof. intros a' _ q Hin. by apply elem_of_nil in Hin. Qed.

Lemma answered_print line : answered cat (print line).
Proof.
  intros a' _ q Hin. apply list_elem_of_singleton in Hin. discriminate.
Qed.

Lemma answered_ask {A} q (a : answer A) :
  raised_text cat q = error_text a -> answered cat (ask q a).
Proof.
  intros Hq rows. rewrite result_ask, trace_ask.
  destruct a as [msg|rows']; [done|]. intros _ q' Hin.
  apply list_elem_of_singleton in Hin. injection Hin as ->. by rewrite Hq.
Qed.

Lemma answered_bind {A B} (m : M A) (f : A -> M B) :
  answered cat m -> (forall a, answered cat (f a)) -> answered cat (m ≫= f).
Proof.
  intros Hm Hf b. rewrite result_bind, trace_bind.
  destruct (result m) as [e|a] eqn:Hr; [done|]. intros Hb q Hin.
  apply elem_of_app in Hin as [Hin | Hin]; [by eapply Hm | by eapply Hf].
Qed.

Lemma answered_try_except_raise {A} (m : M A) (wrap : exn -> exn) :
  answered cat m -> answered cat (try_except m (fun e => raise (wrap e))).
Proof.
  intros Hm a. rewrite result_try_except, trace_try_except.
  destruct (result m) as [e|a'] eqn:Hr.
  - by destruct (is_Exception e).
  - intros _ q Hin. rewrite app_nil_r in Hin. by eapply Hm.
Qed.

Lemma answered_for_each {A X} (body : A -> X -> M A) acc xs :
  (forall a x, answered cat (body a x)) -> answered cat (for_each body acc xs).
Proof.
  intros Hbody. revert acc. induction xs as [|x xs IH]; intros acc.
  - apply (answered_ret acc).
  - rewrite for_each_cons. apply answered_bind; [apply Hbody | apply IH].
Qed.

(** A run that returns made no call on which the catalog raises. *)
Lemma answered_extract_schema : answered cat (extract_schema cat).
Proof.
  unfold extract_schema.
  apply answered_bind; [by apply answered_ask | intros names].
  apply answered_bind; [|intros ?; apply answered_ret].
  apply answered_for_each. intros a s. unfold add_schema.
  apply answered_bind; [apply answered_print | intros _].
  apply answered_bind; [by apply answered_ask | intros tables].
  apply answered_bind; [|intros ?; apply answered_ret].
  apply answered_for_each. intros ta t. unfold add_table.
  apply answered_bind; [|intros ?; apply answered_ret].
  unfold extract_table, _get_primary_keys, _get_foreign_keys, fetch_indexes,
    fetch_referenced_by, _get_referenced_by.
  repeat first
    [ apply answered_bind; [|intros ?]
    | apply answered_try_except_raise
    | apply answered_ret
    | apply answered_print
    | by apply answered_ask ].
Qed.
End answered_facts.

(** X10. When the last call of a run is one on which the catalog raises,
    [extract_schema] raises, and the exception is fixed by that call: the
    extractor's own error with the handler's message for the index listing
    and for the reverse-reference query, and for every other call the
    exception of the catalog as it is. *)
Theorem failed_call_fixes_exception cat tr q msg :
  trace (extract_schema cat) = tr ++ [EQuery q] ->
  raised_text cat q = Some msg ->
  result (extract_schema cat) =
    inl (match q with
         | QIndexes _ _ => SchemaValueError (index_error_msg (Exception msg))
         | QReferencedBy s t =>
             SchemaValueError (referenced_by_error_msg s t (Exception msg))
         | _ => Exception msg
         end).
Proof.
  intros Htr Hq. destruct (result (extract_schema cat)) as [e|db] eqn:Hr.
  - destruct (stops_with_extract_schema cat e Hr)
      as (tr' & q' & msg' & Htr' & Hq' & ->).
    rewrite Htr in Htr'. apply app_inj_tail in Htr' as [_ [= <-]].
    rewrite Hq in Hq'. by injection Hq' as <-.
  - rewrite (answered_extract_schema cat db Hr q) in Hq; [done|].
    rewrite Htr. apply elem_of_app. right. apply list_elem_of_here.
Qed.

(** X11. When the run stops at the reverse-reference query of table [t]
    of schema [s], it raises the extractor's own error and the message
    contains the schema name, the table name and the text of the exception
    that the query raised. *)
Theorem reverse_reference_failure_message cat e tr s t :
  result (extract_schema cat) = inl e ->
  trace (extract_schema cat) = tr ++ [EQuery (QReferencedBy s t)] ->
  exists msg,
    execute_referenced_by cat s t = inl msg ∧
    e = SchemaValueError (exn_str e) ∧
    contains s (exn_str e) = true ∧
    contains t (exn_str e) = true ∧
    contains msg (exn_str e) = true.
Proof.
  intros He Htr.
  destruct (stops_with_extract_schema cat e He) as (tr' & q & msg & Htr' & Hq & ->).
  rewrite Htr in Htr'. apply app_inj_tail in Htr' as [_ [= <-]].
  simpl in Hq. destruct (execute_referenced_by cat s t) as [msg'|]; [|done].
  injection Hq as ->. exists msg. split; [done|]. split; [done|].
  apply (referenced_by_error_msg_carries s t (Exception msg)).
Qed.

(** ** Which calls a run makes *)

Section trace_Forall_result.
Context (P : event -> Prop).

Lemma trace_Forall_bind_inr {A B} (m : M A) (f : A -> M B) :
  Forall P (trace m) ->
  (forall a, result m = inr a -> Forall P (trace (f a))) ->
  Forall P (trace (m ≫= f)).
Proof.
  intros Hm Hf. rewrite trace_bind. apply Forall_app. split; [done|].
  destruct (result m) as [e|a]; [apply Forall_nil_2 | by apply Hf].
Qed.

Lemma trace_Forall_for_each_in {A X} (body : A -> X -> M A) acc xs :
  (forall a x, x ∈ xs -> Forall P (trace (body a x))) ->
  Forall P (trace (for_each body acc xs)).
Proof.
  revert acc. induction xs as [|x xs IH]; intros acc Hbody.
  - apply Forall_nil_2.
  - rewrite for_each_cons. apply trace_Forall_bind.
    + apply Hbody, list_elem_of_here.
    + intros a. apply IH. intros a' y Hy. by apply Hbody, list_elem_of_further.
Qed.
End trace_Forall_result.

Lemma trace_extract_table_in_scope cat s t :
  listed_table cat s t ->
  Forall (event_in_scope cat) (trace (extract_table cat s t)).
Proof.
  intros Hl.
  unfold extract_table, _get_primary_keys, _get_foreign_keys, fetch_indexes,
    fetch_referenced_by, _get_referenced_by.
  repeat first
    [ apply trace_Forall_bind; [|intros ?]
    | apply trace_Forall_try_except_raise
    | apply trace_Forall_ret
    | by apply trace_Forall_print
    | by apply trace_Forall_ask
    | apply trace_Forall_ask; by exists s, t ].
Qed.

(** X12. Every catalog call of a run, whether it returns or raises,
    concerns a schema that was reported and is not a system schema, and
    the calls made per table concern a table that the catalog listed for
    that schema. *)
Theorem calls_stay_in_scope cat q :
  EQuery q ∈ trace (extract_schema cat) -> call_in_scope cat q.
Proof.
  revert q.
  assert (Forall (event_in_scope cat) (trace (extract_schema cat))) as Hall.
  { unfold extract_schema.
    apply trace_Forall_bind_inr; [by apply trace_Forall_ask | intros names Hn].
    apply ask_inr in Hn.
    apply trace_Forall_bind; [|intros ?; apply trace_Forall_ret].
    apply trace_Forall_for_each_in. intros a s Hs.
    apply list_elem_of_filter in Hs as [Hsys Hs].
    assert (kept_schema cat s) as Hkept by (by exists names).
    unfold add_schema.
    apply trace_Forall_bind; [by apply trace_Forall_print | intros _].
    apply trace_Forall_bind_inr; [by apply trace_Forall_ask | intros tables Ht].
    apply ask_inr in Ht.
    apply trace_Forall_bind; [|intros ?; apply trace_Forall_ret].
    apply trace_Forall_for_each_in. intros ta t Hin. unfold add_table.
    apply trace_Forall_bind; [|intros ?; apply trace_Forall_ret].
    apply trace_extract_table_in_scope. split; [done | by eauto]. }
  intros q Hq. rewrite Forall_forall in Hall. apply (Hall _ Hq).
Qed.

Lemma trace_get_primary_keys cat s t :
  trace (_get_primary_keys cat s t) = [EQuery (QPrimaryKeys (s +:+ "." +:+ t))].
Proof.
  unfold _get_primary_keys. rewrite trace_bind, trace_ask, result_ask.
  by destruct (execute_primary_keys _ _).
Qed.

Lemma trace_get_foreign_keys cat s t :
  trace (_get_foreign_keys cat s t) = [EQuery (QForeignKeys s t)].
Proof.
  unfold _get_foreign_keys. rewrite trace_bind, trace_ask, result_ask.
  by destruct (execute_foreign_keys _ _ _).
Qed.

(** The events of one table, when all of its calls return. *)
Lemma trace_extract_table_inr cat s t tbl :
  result (extract_table cat s t) = inr tbl ->
  trace (extract_table cat s t) =
  [EQuery (QColumns t s); EQuery (QPrimaryKeys (s +:+ "." +:+ t));
   EQuery (QForeignKeys s t);
   EPrint ("table_name = " +:+ t);
   EPrint ("Obtendo os indices para a tabela '" +:+ s +:+ "." +:+ t +:+ "'");
   EQuery (QIndexes t s); EQuery (QReferencedBy s t)].
Proof.
  intros H. destruct (extract_table_inr _ _ _ _ H)
    as (cols & pks & fks & rows & refs & Hc & Hpk & Hfk & Hi & Hr & _).
  unfold extract_table.
  rewrite trace_bind, trace_ask, result_ask, Hc.
  rewrite trace_bind, trace_get_primary_keys, Hpk.
  rewrite trace_bind, trace_get_foreign_keys, Hfk.
  rewrite trace_bind. simpl (trace (print _)). simpl (result (print _)).
  rewrite trace_bind. simpl (trace (print _)). simpl (result (print _)).
  rewrite trace_bind, trace_fetch_indexes, fetch_indexes_result, Hi.
  rewrite trace_bind, trace_fetch_referenced_by.
  by destruct (result (fetch_referenced_by cat s t)).
Qed.

Lemma calls_app tr tr' : calls (tr ++ tr') = calls tr ++ calls tr'.
Proof. apply omap_app. Qed.

(** ** The order of the calls *)

Lemma calls_bind {A B} (m : M A) (f : A -> M B) :
  calls (trace (m ≫= f)) =
  calls (trace m) ++
  match result m with inl _ => [] | inr a => calls (trace (f a)) end.
Proof. rewrite trace_bind, calls_app. by destruct (result m). Qed.

Lemma calls_extract_table_prefix cat s t :
  calls (trace (extract_table cat s t)) `prefix_of` table_calls s t.
Proof.
  unfold extract_table, table_calls.
  rewrite calls_bind, trace_ask, result_ask.
  destruct (get_columns cat t s) as [|cols]; [by eexists|].
  rewrite calls_bind, trace_get_primary_keys, get_primary_keys_result.
  destruct (execute_primary_keys cat _) as [|pks]; [by eexists|].
  rewrite calls_bind, trace_get_foreign_keys, get_foreign_keys_result.
  destruct (execute_foreign_keys cat s t) as [|fks]; [by eexists|].
  rewrite calls_bind. simpl (trace (print _)). simpl (result (print _)).
  rewrite calls_bind. simpl (trace (print _)). simpl (result (print _)).
  rewrite calls_bind, trace_fetch_indexes, fetch_indexes_result.
  destruct (get_indexes cat t s) as [|rows]; [by eexists|].
  rewrite calls_bind, trace_fetch_referenced_by, fetch_referenced_by_result.
  destruct (execute_referenced_by cat s t) as [|refs]; by eexists.
Qed.

Section loop_prefix.
Context {A X : Type} (body : A -> X -> M A) (expected : X -> list query).
Context (Hprefix : forall a x, calls (trace (body a x)) `prefix_of` expected x).
Context (Hexact : forall a x a',
  result (body a x) = inr a' -> calls (trace (body a x)) = expected x).

(** A loop whose iterations each make an initial segment of their calls,
    and all of them when they complete, makes an initial segment of the
    calls of all of its iterations. *)
Lemma calls_for_each_prefix xs acc :
  calls (trace (for_each body acc xs)) `prefix_of` concat (expected <$> xs).
Proof.
  revert acc. induction xs as [|x xs IH]; intros acc; [done|].
  rewrite for_each_cons, calls_bind, fmap_cons, concat_cons.
  destruct (result (body acc x)) as [e|a] eqn:Hr.
  - rewrite app_nil_r. by apply prefix_app_r.
  - rewrite (Hexact _ _ _ Hr). by apply list.prefix_app.
Qed.

Lemma calls_for_each_exact xs acc r :
  result (for_each body acc xs) = inr r ->
  calls (trace (for_each body acc xs)) = concat (expected <$> xs).
Proof.
  revert acc. induction xs as [|x xs IH]; intros acc Hr; [done|].
  rewrite for_each_cons in *. apply bind_inr in Hr as (a & Ha & Hr).
  by rewrite calls_bind, Ha, (Hexact _ _ _ Ha), (IH _ Hr).
Qed.
End loop_prefix.

Lemma calls_add_table_prefix cat s a t :
  calls (trace (add_table cat s a t)) `prefix_of` table_calls s t.
Proof.
  unfold add_table. rewrite calls_bind.
  destruct (result (extract_table cat s t)); simpl; rewrite app_nil_r;
    apply calls_extract_table_prefix.
Qed.

Lemma calls_add_table_exact cat s a t a' :
  result (add_table cat s a t) = inr a' ->
  calls (trace (add_table cat s a t)) = table_calls s t.
Proof.
  unfold add_table. intros H. apply bind_inr in H as (tbl & Htbl & _).
  rewrite calls_bind, Htbl, (trace_extract_table_inr _ _ _ _ Htbl).
  reflexivity.
Qed.

Lemma calls_add_schema_prefix cat a s :
  calls (trace (add_schema cat a s)) `prefix_of`
  QTableNames s :: concat (table_calls s <$> tables_of cat s).
Proof.
  unfold add_schema, tables_of.
  rewrite calls_bind. simpl (trace (print _)). simpl (result (print _)).
  rewrite calls_bind, trace_ask, result_ask.
  destruct (get_table_names cat s) as [|tables]; [by eexists|].
  rewrite calls_bind. simpl. apply prefix_cons.
  destruct (result (for_each _ _ _)); simpl; rewrite app_nil_r;
    (apply (calls_for_each_prefix _ (table_calls s));
       [apply calls_add_table_prefix | apply calls_add_table_exact]).
Qed.

Lemma calls_add_schema_exact cat a s a' :
  result (add_schema cat a s) = inr a' ->
  calls (trace (add_schema cat a s)) =
  QTableNames s :: concat (table_calls s <$> tables_of cat s).
Proof.
  intros H. apply add_schema_inr in H as (sch & _ & tables & Ht & Hloop).
  unfold add_schema, tables_of.
  rewrite calls_bind. simpl (trace (print _)). simpl (result (print _)).
  rewrite calls_bind, trace_ask, result_ask, Ht.
  rewrite calls_bind, Hloop. simpl. rewrite app_nil_r. f_equal.
  apply (calls_for_each_exact _ _ (calls_add_table_exact cat s) _ _ _ Hloop).
Qed.

(** X13. On a run that returns, the catalog is called exactly as
    follows: once for the schema names; then, for each schema kept, in the
    order reported, once for its table names and, for each table listed,
    in the order listed, once each for its columns, its primary key, its
    foreign keys, its indexes and its incoming references, in this
    order. *)
Theorem calls_follow_schedule cat db names :
  result (extract_schema cat) = inr db ->
  get_schema_names cat = inr names ->
  calls (trace (extract_schema cat)) = schedule cat names.
Proof.
  intros Hdb Hnames.
  apply extract_schema_inr in Hdb as (names' & Hn & Hloop).
  rewrite Hnames in Hn. injection Hn as <-.
  unfold extract_schema, schedule.
  rewrite trace_bind, trace_ask, result_ask, Hnames.
  rewrite trace_bind, Hloop, !calls_app. simpl. rewrite app_nil_r. f_equal.
  apply (calls_for_each_exact _ _ (calls_add_schema_exact cat) _ _ _ Hloop).
Qed.

(** X14. In every run, whether it returns or raises, the catalog calls
    made are an initial segment of the calls of a complete traversal: no
    call is skipped, repeated or made out of order before the run
    stops. *)
Theorem calls_prefix_of_schedule cat names :
  get_schema_names cat = inr names ->
  calls (trace (extract_schema cat)) `prefix_of` schedule cat names.
Proof.
  intros Hnames. unfold extract_schema, schedule.
  rewrite calls_bind, trace_ask, result_ask, Hnames.
  rewrite calls_bind. simpl. apply prefix_cons.
  destruct (result (for_each _ _ _)); simpl; rewrite app_nil_r;
    (apply (calls_for_each_prefix _
              (fun s => QTableNames s :: concat (table_calls s <$> tables_of cat s)));
       [apply calls_add_schema_prefix | apply calls_add_schema_exact]).
Qed.

(** ** main on every path *)

Lemma reads_only_no_effect tr :
  Forall reads_only tr -> writes tr = [] ∧ closes tr = 0.
Proof.
  unfold closes. induction 1 as [|ev tr Hev _ [IHw IHc]]; [done|].
  destruct ev; simpl in *; done.
Qed.

Lemma writes_app tr tr' : writes (tr ++ tr') = writes tr ++ writes tr'.
Proof. apply omap_app. Qed.

Lemma closes_app tr tr' : closes (tr ++ tr') = closes tr + closes tr'.
Proof. unfold closes. by rewrite omap_app, length_app. Qed.

Section main_paths.
Context (model_dump_json : DatabaseModel -> string).
Context (open_error : string -> option string).
Context (extractor_repr : string).

Local Abbreviation run_main :=
  (main model_dump_json open_error extractor_repr).

(** What [main] does after an extraction that returned [db]. *)
Lemma main_extraction_returned cat db :
  result (extract_schema cat) = inr db ->
  result (run_main cat) =
    match open_error JSON_DESTINATION_FILENAME with
    | None => inr tt
    | Some _ => inl (SystemExit 1)
    end ∧
  exists first last,
    contains JSON_DESTINATION_FILENAME last = true ∧
    trace (run_main cat) =
    EPrint first :: trace (extract_schema cat) ++
    match open_error JSON_DESTINATION_FILENAME with
    | None =>
        [EWrite JSON_DESTINATION_FILENAME (model_dump_json db);
         EPrint "Fechando conexão ao banco de dados"; EClose; EPrint last]
    | Some msg =>
        [EPrint ("Erro durante a extração: " +:+ msg);
         EPrint "Fechando conexão ao banco de dados"; EClose]
    end.
Proof.
  intros Hdb. unfold main.
  rewrite !result_bind, !trace_bind.
  rewrite result_try_finally, trace_try_finally.
  rewrite result_try_except, trace_try_except, !result_bind, !trace_bind.
  rewrite Hdb. unfold write_file.
  destruct (open_error JSON_DESTINATION_FILENAME) as [msg|]; simpl.
  - split; [done|]. eexists _, _. split; [|by rewrite !app_nil_r, <- !app_assoc].
    by apply (contains_self JSON_DESTINATION_FILENAME).
  - split; [done|]. eexists _, _. split; [|by rewrite <- !app_assoc].
    by vm_compute.
Qed.


(** X16. After an extraction that returned, when opening the destination
    raises, [main] prints the text of that exception, closes the
    extractor, writes nothing and leaves through [sys.exit(1)]. *)
Theorem main_open_failure cat db msg :
  result (extract_schema cat) = inr db ->
  open_error JSON_DESTINATION_FILENAME = Some msg ->
  result (run_main cat) = inl (SystemExit 1) ∧
  exit_code (run_main cat) = 1%Z ∧
  writes (trace (run_main cat)) = [] ∧
  exists first,
    trace (run_main cat) =
    EPrint first :: trace (extract_schema cat) ++
    [EPrint ("Erro durante a extração: " +:+ msg);
     EPrint "Fechando conexão ao banco de dados"; EClose].
Proof.
  intros Hdb Hopen.
  destruct (main_extraction_returned cat db Hdb) as (Hres & first & last & _ & Htr).
  rewrite Hopen in Hres, Htr.
  destruct (fail_fast_extract_schema cat) as [Hreads _].
  apply reads_only_no_effect in Hreads as [Hw _].
  split; [done|]. split; [unfold exit_code; by rewrite Hres|].
  split; [|by exists first].
  rewrite Htr. simpl. by rewrite writes_app, Hw.
Qed.

(** From the constructed extractor on, [main] closes the extractor
    exactly once, and ends with status 0 after one write or with status 1
    without any. *)
Lemma main_outcomes_constructed cat :
  closes (trace (run_main cat)) = 1 ∧
  ((exit_code (run_main cat) = 0%Z ∧
    exists db,
      result (extract_schema cat) = inr db ∧
      writes (trace (run_main cat)) =
        [(JSON_DESTINATION_FILENAME, model_dump_json db)]) ∨
   (exit_code (run_main cat) = 1%Z ∧ writes (trace (run_main cat)) = [])).
Proof.
  destruct (fail_fast_extract_schema cat) as [Hreads _].
  apply reads_only_no_effect in Hreads as [Hw Hc].
  destruct (result (extract_schema cat)) as [e|db] eqn:Hr.
  - destruct (main_extraction_failed model_dump_json open_error extractor_repr
                cat e Hr) as (Hres & line & Htr).
    rewrite Htr. split.
    + change (EPrint line :: ?l) with ([EPrint line] ++ l).
      by rewrite !closes_app, Hc.
    + right. split; [unfold exit_code; by rewrite Hres|].
      simpl. by rewrite writes_app, Hw.
  - destruct (main_extraction_returned cat db Hr)
      as (Hres & first & last & _ & Htr).
    rewrite Htr. destruct (open_error JSON_DESTINATION_FILENAME) as [msg|].
    + split.
      * change (EPrint first :: ?l) with ([EPrint first] ++ l).
        by rewrite !closes_app, Hc.
      * right. split; [unfold exit_code; by rewrite Hres|].
        simpl. by rewrite writes_app, Hw.
    + split.
      * change (EPrint first :: ?l) with ([EPrint first] ++ l).
        by rewrite !closes_app, Hc.
      * left. split; [unfold exit_code; by rewrite Hres|].
        exists db. split; [done|]. simpl. by rewrite writes_app, Hw.
Qed.
End main_paths.

Section start_paths.
Context (model_dump_json : DatabaseModel -> string).
Context (open_error : string -> option string).
Context (extractor_repr : string).
Context (construct_error : option string).

Local Abbreviation run_start :=
  (main_from_start model_dump_json open_error extractor_repr construct_error).

(** X17. Seen from its first statement, and with a write to the opened
    file and a [close] that do not raise, [main] ends in one of three
    ways. The constructor raises: nothing is closed, nothing is written
    and the status is 1. Otherwise the extractor is closed exactly once,
    and either the serialized model is written once to the destination
    and the status is 0, or nothing is written and the status is 1. *)
Theorem main_outcomes cat :
  closes (trace (run_start cat)) =
    match construct_error with Some _ => 0 | None => 1 end ∧
  ((exit_code (run_start cat) = 0%Z ∧
    construct_error = None ∧
    exists db,
      result (extract_schema cat) = inr db ∧
      writes (trace (run_start cat)) =
        [(JSON_DESTINATION_FILENAME, model_dump_json db)]) ∨
   (exit_code (run_start cat) = 1%Z ∧ writes (trace (run_start cat)) = [])).
Proof.
  unfold main_from_start. destruct construct_error as [msg|].
  - split; [done|]. by right.
  - destruct (main_outcomes_constructed model_dump_json open_error
                extractor_repr cat) as [Hc [(He & db & Hdb & Hw) | [He Hw]]].
    + split; [done|]. left. split; [done|]. split; [done|]. by exists db.
    + split; [done|]. by right.
Qed.
End start_paths.
End properties.

(** * Sample runs *)

Section sample_runs.
#[local] Existing Instance ascii_str_lower.

(** A table of the sample model is [assembled]: by evaluation. *)
Ltac sample_assembled :=
  exists Sample.model, Sample.public; by vm_compute.

(** The composite key of [order_items]: both of its columns are flagged. *)
Lemma primary_key_flag_iff_member_witness :
  exists pks,
    result (_get_primary_keys Sample.catalog "public" "order_items") = inr pks ∧
    (col_primary_key (Sample.column "order_items" "product_id") = true <->
     col_name (Sample.column "order_items" "product_id") ∈ pks).
Proof.
  apply (primary_key_flag_iff_member Sample.catalog "public" "order_items"
           (Sample.table "order_items") "product_id").
  - sample_assembled.
  - by vm_compute.
Defined.

Lemma foreign_key_present_iff_key_witness :
  exists fks,
    result (_get_foreign_keys Sample.catalog "public" "orders") = inr fks ∧
    (is_Some (col_foreign_key (Sample.column "orders" "customer_id")) <->
     col_name (Sample.column "orders" "customer_id") ∈ dict_keys fks) ∧
    (forall fk,
       col_foreign_key (Sample.column "orders" "customer_id") = Some fk ->
       dict_get fks (col_name (Sample.column "orders" "customer_id")) = Some fk).
Proof.
  apply (foreign_key_present_iff_key Sample.catalog "public" "orders"
           (Sample.table "orders") "customer_id").
  - sample_assembled.
  - by vm_compute.
Defined.

(** [orders] has a primary key and the catalog lists its backing index
    under the sentinel name. *)
Lemma primary_sentinel_never_indexed_witness :
  ("PRIMARY" ∉ dict_keys (tbl_indexes (Sample.table "orders"))) ∧
  dict_get (tbl_indexes (Sample.table "orders")) "PRIMARY" = None ∧
  (forall k idx, (k, idx) ∈ tbl_indexes (Sample.table "orders") ->
                 k ≠ "PRIMARY" ∧ idx_name idx ≠ "PRIMARY").
Proof.
  apply (primary_sentinel_never_indexed Sample.catalog "public" "orders").
  sample_assembled.
Defined.

(** [orders_customer_idx] is reported with the label "HASH" and
    [orders_id_key] without a label; [str.lower] is [lower] here. *)
Lemma index_type_lowercased_witness :
  idx_type (Sample.index "orders" "orders_customer_idx") = Some "hash" ∧
  idx_type (Sample.index "orders" "orders_id_key") = Some "btree".
Proof.
  split.
  - destruct (index_type_lowercased Sample.catalog "public" "orders"
                (Sample.table "orders") "orders_customer_idx"
                (Sample.index "orders" "orders_customer_idx"))
      as (rows & row & Hrows & Hin & Hname & Hlabel & _).
    + sample_assembled.
    + apply dict_get_elem_of. by vm_compute.
    + injection Hrows as <-. vm_compute in Hin, Hname.
      repeat (apply elem_of_cons in Hin as [-> | Hin]; try discriminate Hname).
      * exact (Hlabel "HASH" eq_refl).
      * by apply elem_of_nil in Hin.
  - destruct (index_type_lowercased Sample.catalog "public" "orders"
                (Sample.table "orders") "orders_id_key"
                (Sample.index "orders" "orders_id_key"))
      as (rows & row & Hrows & Hin & Hname & _ & Hnone).
    + sample_assembled.
    + apply dict_get_elem_of. by vm_compute.
    + injection Hrows as <-. vm_compute in Hin, Hname.
      repeat (apply elem_of_cons in Hin as [-> | Hin]; try discriminate Hname).
      * exact (Hnone eq_refl).
      * by apply elem_of_nil in Hin.
Defined.

Example index_type_hash :
  idx_type (Sample.index "orders" "orders_customer_idx") = Some "hash".
Proof. by vm_compute. Qed.

Example index_type_default :
  idx_type (Sample.index "orders" "orders_id_key") = Some "btree".
Proof. by vm_compute. Qed.

Lemma referenced_by_single_column_witness :
  length (ref_columns (mkReferencedBy "orders" ["id"] "orders_customer_fk2")) = 1 ∧
  exists rows row,
    execute_referenced_by Sample.catalog "public" "customers" = inr rows ∧
    row ∈ rows ∧
    ref_columns (mkReferencedBy "orders" ["id"] "orders_customer_fk2") =
      [rr_source_column row].
Proof.
  apply (referenced_by_single_column Sample.catalog "public" "customers"
           [("orders", mkReferencedBy "orders" ["id"] "orders_customer_fk2")]
           "orders").
  - by vm_compute.
  - apply list_elem_of_here.
Defined.

(** Two constraints of [orders] on [customer_id], and two constraints of
    [orders] pointing at [customers]: the second one is kept. *)
Lemma lookups_last_write_wins_witness :
  dict_get (dict_comprehension fkr_column_name fk_of_row
              (Sample.foreign_keys "public" "orders")) "customer_id"
    = Some (mkForeignKey "customers" "id" "orders_customer_fk2") ∧
  dict_get (dict_comprehension rr_source_table ref_of_row
              (Sample.referenced_by "public" "customers")) "orders"
    = Some (mkReferencedBy "orders" ["id"] "orders_customer_fk2").
Proof.
  destruct (lookups_last_write_wins Sample.catalog "public" "orders") as [Hfk _].
  destruct (lookups_last_write_wins Sample.catalog "public" "customers") as [_ Href].
  split.
  - destruct (Hfk _ eq_refl) as [_ Hlast].
    apply (Hlast [mkFkRow "customer_id" "customers" "id" "orders_customer_fk"]
                 (mkFkRow "customer_id" "customers" "id" "orders_customer_fk2") []).
    + reflexivity.
    + intros row' Hin. by apply elem_of_nil in Hin.
  - destruct (Href _ eq_refl) as [_ Hlast].
    apply (Hlast [mkRefRow "orders" "id" "orders_customer_fk"]
                 (mkRefRow "orders" "id" "orders_customer_fk2") []).
    + reflexivity.
    + intros row' Hin. by apply elem_of_nil in Hin.
Defined.

Lemma table_keys_consistent_witness :
  (forall k c, (k, c) ∈ tbl_columns (Sample.table "orders") -> col_name c = k) ∧
  (forall k i, (k, i) ∈ tbl_indexes (Sample.table "orders") -> idx_name i = k) ∧
  (forall k r, (k, r) ∈ tbl_referenced_by (Sample.table "orders") -> ref_table r = k).
Proof.
  apply (table_keys_consistent Sample.catalog "public" "orders").
  sample_assembled.
Defined.

Lemma schemas_exactly_non_system_witness :
  exists names,
    get_schema_names Sample.catalog = inr names ∧
    (forall s, s ∈ dict_keys (db_schemas Sample.model) <->
               s ∈ names ∧ s ≠ "information_schema" ∧ s ≠ "pg_catalog") ∧
    (forall s, EQuery (QTableNames s) ∈ trace (extract_schema Sample.catalog) <->
               s ∈ names ∧ s ≠ "information_schema" ∧ s ≠ "pg_catalog").
Proof.
  apply (schemas_exactly_non_system Sample.catalog Sample.model).
  by vm_compute.
Defined.

Example sample_schema_keys : dict_keys (db_schemas Sample.model) = ["public"].
Proof. by vm_compute. Qed.

(** The index lookup raises on [orders], the second table of [public]. *)
Lemma lookup_failure_aborts_run_witness :
  (exists e, result (extract_schema Sample.broken_indexes) = inl e) ∧
  (exists tr q,
     trace (extract_schema Sample.broken_indexes) = tr ++ [EQuery q] ∧
     raises Sample.broken_indexes q) ∧
  (forall path content,
     EWrite path content ∉
       trace (main (fun _ => "{}") (fun _ => None) "<extractor>"
                   Sample.broken_indexes)) ∧
  result (main (fun _ => "{}") (fun _ => None) "<extractor>"
               Sample.broken_indexes) = inl (SystemExit 1) ∧
  exit_code (main (fun _ => "{}") (fun _ => None) "<extractor>"
                  Sample.broken_indexes) = 1%Z.
Proof.
  apply (lookup_failure_aborts_run (fun _ => "{}") (fun _ => None) "<extractor>"
           Sample.broken_indexes Sample.schema_names "public"
           (Sample.table_names "public") "orders").
  - reflexivity.
  - compute_done.
  - compute_done.
  - reflexivity.
  - compute_done.
  - left. exact I.
Defined.

Example broken_indexes_trace :
  trace (extract_schema Sample.broken_indexes) =
  [EQuery QSchemaNames; EPrint "schema = public";
   EQuery (QTableNames "public");
   EQuery (QColumns "customers" "public");
   EQuery (QPrimaryKeys "public.customers");
   EQuery (QForeignKeys "public" "customers");
   EPrint "table_name = customers";
   EPrint "Obtendo os indices para a tabela 'public.customers'";
   EQuery (QIndexes "customers" "public");
   EQuery (QReferencedBy "public" "customers");
   EQuery (QColumns "orders" "public");
   EQuery (QPrimaryKeys "public.orders");
   EQuery (QForeignKeys "public" "orders");
   EPrint "table_name = orders";
   EPrint "Obtendo os indices para a tabela 'public.orders'";
   EQuery (QIndexes "orders" "public")].
Proof. by vm_compute. Qed.

Lemma column_copied_from_catalog_witness :
  exists col,
    dict_get (tbl_columns (Sample.table "order_items")) "quantity" = Some col ∧
    col_name col = "quantity" ∧ col_type col = "INTEGER" ∧
    col_nullable col = true ∧ col_default col = Some "1".
Proof.
  apply (column_copied_from_catalog Sample.catalog "public" "order_items"
           (Sample.table "order_items")
           [mkColumnInfo "order_id" "INTEGER" false None;
            mkColumnInfo "product_id" "INTEGER" false None]
           (mkColumnInfo "quantity" "INTEGER" true (Some "1")) []).
  - sample_assembled.
  - reflexivity.
  - intros row' Hin. by apply elem_of_nil in Hin.
Defined.

Lemma columns_in_catalog_order_witness :
  dict_keys (tbl_columns (Sample.table "order_items")) =
  ["order_id"; "product_id"; "quantity"].
Proof.
  apply (columns_in_catalog_order Sample.catalog "public" "order_items"
           (Sample.table "order_items")
           (Sample.columns "order_items" "public")).
  - sample_assembled.
  - reflexivity.
  - compute_done.
Defined.

Lemma index_copied_from_catalog_witness :
  exists idx,
    dict_get (tbl_indexes (Sample.table "orders")) "orders_id_key" = Some idx ∧
    idx_name idx = "orders_id_key" ∧
    idx_columns idx = ["id"] ∧
    idx_unique idx = true.
Proof.
  apply (index_copied_from_catalog Sample.catalog "public" "orders"
           (Sample.table "orders")
           [mkIndexInfo "PRIMARY" ["id"] true None]
           (mkIndexInfo "orders_id_key" ["id"] true None)
           [mkIndexInfo "orders_customer_idx" ["customer_id"] false (Some "HASH")]).
  - sample_assembled.
  - reflexivity.
  - done.
  - intros row' Hin. apply list_elem_of_singleton in Hin as ->. done.
Defined.

Lemma indexes_in_catalog_order_witness :
  dict_keys (tbl_indexes (Sample.table "orders")) =
  ["orders_id_key"; "orders_customer_idx"].
Proof.
  apply (indexes_in_catalog_order Sample.catalog "public" "orders"
           (Sample.table "orders") (Sample.indexes "orders" "public")).
  - sample_assembled.
  - reflexivity.
  - compute_done.
Defined.

(** [orders.customer_id] is named by two rows of the foreign-key query,
    of which the second is kept; [order_items.product_id] by none. *)
Lemma column_foreign_key_from_rows_witness :
  col_foreign_key (Sample.column "orders" "customer_id") =
    Some (mkForeignKey "customers" "id" "orders_customer_fk2") ∧
  col_foreign_key (Sample.column "order_items" "product_id") = None.
Proof.
  split.
  - destruct (column_foreign_key_from_rows Sample.catalog "public" "orders"
                (Sample.table "orders") "customer_id"
                (Sample.column "orders" "customer_id")
                (Sample.foreign_keys "public" "orders")) as [Hlast _].
    + sample_assembled.
    + by vm_compute.
    + reflexivity.
    + apply (Hlast [mkFkRow "customer_id" "customers" "id" "orders_customer_fk"]
                   (mkFkRow "customer_id" "customers" "id" "orders_customer_fk2")
                   []).
      * reflexivity.
      * reflexivity.
      * intros row' Hin. by apply elem_of_nil in Hin.
  - destruct (column_foreign_key_from_rows Sample.catalog "public" "order_items"
                (Sample.table "order_items") "product_id"
                (Sample.column "order_items" "product_id")
                (Sample.foreign_keys "public" "order_items")) as [_ Hnone].
    + sample_assembled.
    + by vm_compute.
    + reflexivity.
    + apply Hnone. intros row Hin. vm_compute in Hin.
      apply list_elem_of_singleton in Hin as ->. discriminate.
Defined.

Lemma referenced_by_from_rows_witness :
  dict_get (tbl_referenced_by (Sample.table "customers")) "orders" =
    Some (mkReferencedBy "orders" ["id"] "orders_customer_fk2").
Proof.
  apply (referenced_by_from_rows Sample.catalog "public" "customers"
           (Sample.table "customers")
           [mkRefRow "orders" "id" "orders_customer_fk"]
           (mkRefRow "orders" "id" "orders_customer_fk2") []).
  - sample_assembled.
  - reflexivity.
  - intros row' Hin. by apply elem_of_nil in Hin.
Defined.

Lemma model_keys_distinct_witness :
  NoDup (dict_keys (db_schemas Sample.model)) ∧
  forall s sch, (s, sch) ∈ db_schemas Sample.model ->
    NoDup (dict_keys (sch_tables sch)) ∧
    forall t tbl, (t, tbl) ∈ sch_tables sch ->
      NoDup (dict_keys (tbl_columns tbl)) ∧
      NoDup (dict_keys (tbl_indexes tbl)) ∧
      NoDup (dict_keys (tbl_referenced_by tbl)).
Proof.
  apply (model_keys_distinct Sample.catalog Sample.model). by vm_compute.
Defined.

Lemma tables_as_listed_witness :
  exists tables,
    get_table_names Sample.catalog "public" = inr tables ∧
    (forall t, t ∈ dict_keys (sch_tables Sample.public) <-> t ∈ tables) ∧
    (NoDup tables -> dict_keys (sch_tables Sample.public) = tables).
Proof.
  apply (tables_as_listed Sample.catalog Sample.model "public"); by vm_compute.
Defined.

Lemma schemas_in_catalog_order_witness :
  dict_keys (db_schemas Sample.model) =
  filter (fun s => s ∉ system_schemas) Sample.schema_names.
Proof.
  apply (schemas_in_catalog_order Sample.catalog Sample.model).
  - by vm_compute.
  - reflexivity.
  - compute_done.
Defined.

(** The primary-key query raises on [public.orders]: the run raises that
    exception, not the extractor's own error. *)
Lemma failed_call_fixes_exception_witness :
  result (extract_schema Cases.broken_primary_keys) =
  inl (Exception "relation does not exist").
Proof.
  apply (failed_call_fixes_exception Cases.broken_primary_keys
           (removelast (trace (extract_schema Cases.broken_primary_keys)))
           (QPrimaryKeys "public.orders") "relation does not exist").
  - by vm_compute.
  - reflexivity.
Defined.

(** No call of the sample run raised. *)
Lemma returned_model_no_call_raised_witness :
  raised_text Sample.catalog (QIndexes "orders" "public") = None.
Proof.
  apply (returned_model_no_call_raised Sample.catalog Sample.model).
  - by vm_compute.
  - split; [exists Sample.schema_names | exists (Sample.table_names "public")];
      repeat split; compute_done.
Defined.

Lemma reverse_reference_failure_message_witness :
  exists msg,
    execute_referenced_by Cases.broken_referenced_by "public" "orders" = inl msg ∧
    Cases.reference_error = SchemaValueError (exn_str Cases.reference_error) ∧
    contains "public" (exn_str Cases.reference_error) = true ∧
    contains "orders" (exn_str Cases.reference_error) = true ∧
    contains msg (exn_str Cases.reference_error) = true.
Proof.
  apply (reverse_reference_failure_message Cases.broken_referenced_by
           Cases.reference_error
           (removelast (trace (extract_schema Cases.broken_referenced_by)))
           "public" "orders").
  - by vm_compute.
  - by vm_compute.
Defined.

Lemma calls_stay_in_scope_witness :
  call_in_scope Sample.broken_indexes (QForeignKeys "public" "orders").
Proof.
  apply (calls_stay_in_scope Sample.broken_indexes).
  vm_compute. repeat constructor.
Defined.

Lemma calls_follow_schedule_witness :
  calls (trace (extract_schema Sample.catalog)) =
  schedule Sample.catalog Sample.schema_names.
Proof.
  apply (calls_follow_schedule Sample.catalog Sample.model).
  - by vm_compute.
  - reflexivity.
Defined.

Example sample_schedule_length :
  length (schedule Sample.catalog Sample.schema_names) = 17.
Proof. by vm_compute. Qed.

Lemma calls_prefix_of_schedule_witness :
  calls (trace (extract_schema Sample.broken_indexes)) `prefix_of`
  schedule Sample.broken_indexes Sample.schema_names.
Proof.
  apply (calls_prefix_of_schedule Sample.broken_indexes). reflexivity.
Defined.

Example broken_indexes_calls :
  length (calls (trace (extract_schema Sample.broken_indexes))) = 11 ∧
  length (schedule Sample.broken_indexes Sample.schema_names) = 17.
Proof. by vm_compute. Qed.


Lemma main_open_failure_witness :
  result (main (fun _ => "{}") (fun _ => Some "No such file or directory")
               "<extractor>" Sample.catalog) = inl (SystemExit 1) ∧
  exit_code (main (fun _ => "{}") (fun _ => Some "No such file or directory")
                  "<extractor>" Sample.catalog) = 1%Z ∧
  writes (trace (main (fun _ => "{}") (fun _ => Some "No such file or directory")
                      "<extractor>" Sample.catalog)) = [] ∧
  exists first,
    trace (main (fun _ => "{}") (fun _ => Some "No such file or directory")
                "<extractor>" Sample.catalog) =
    EPrint first :: trace (extract_schema Sample.catalog) ++
    [EPrint ("Erro durante a extração: " +:+ "No such file or directory");
     EPrint "Fechando conexão ao banco de dados"; EClose].
Proof.
  apply (main_open_failure (fun _ => "{}")
           (fun _ => Some "No such file or directory") "<extractor>"
           Sample.catalog Sample.model).
  - by vm_compute.
  - reflexivity.
Defined.
End sample_runs.
